(** * ConnectionsController: the live-connection ledger of the home view

    A shallow embedding of
    [frontend/src/views/HomeView/ConnectionsController.vue]: the
    traffic cache of a component instance, its reactive cells
    ([dataSource], [disconnectedData], [isPause], [isActive], [keywords]),
    the websocket callback [onConnections], the computed
    [filteredConnections], the speed columns and the context-menu handlers.

    Cumulative byte counters are JavaScript numbers holding integral byte
    counts; they are embedded as [Z], the arithmetic of the speed columns is
    integer subtraction, and the only falsy number is [0].  Identities and
    metadata fields are strings.  The [TrafficCache] object, created empty
    when the component is set up, is a finite map from strings (identities are kernel-assigned UUIDs, so
    property names inherited from [Object.prototype] do not occur as
    keys). *)

From Stdlib Require Import ZArith String List Bool Lia.
From stdpp Require Import gmap strings list sorting.

Import ListNotations.

(** ** Data model *)

(** Modelled from the spec: the record type [KernelConnectionsWS] is declared
    in [@/api/kernel.schema], which is not part of the source at hand; the
    fields below are the ones the controller reads. *)
Record Metadata := mkMetadata {
  inboundName : string;
  type : string;
  network : string;
  process : string;
  processPath : string;
  host : string;
  sniffHost : string;
  sourceIP : string;
  sourcePort : string;
  destinationIP : string;
  destinationPort : string;
  remoteDestination : string
}.

(** One element of [KernelConnectionsWS['connections']], with the fields the
    controller reads. *)
Record Connection := mkConnection {
  id : string;
  metadata : Metadata;
  upload : Z;
  download : Z;
  start : string;
  chains : list string;
  rule : string;
  rulePayload : string
}.

(** [type TrafficCacheType = { up: number; down: number }] *)
Record TrafficCacheType := mkTraffic {
  up : Z;
  down : Z
}.

(** An element of [dataSource]: the intersection type
    [KernelConnectionsWS['connections'][0] & TrafficCacheType], i.e. the
    fields of the connection together with [up] and [down]. *)
Record Row := mkRow {
  conn :> Connection;
  traffic :> TrafficCacheType
}.

(** The [connections] property of a delivered object: it can be missing
    ([undefined]), [null], or an array. *)
Inductive ConnectionsField :=
  | FieldUndefined
  | FieldNull
  | FieldArray (l : list Connection).

Record KernelConnectionsWS := mkData {
  connections : ConnectionsField
}.

(** The state the component closes over: [TrafficCache] is a plain object
    declared in the setup script, the other fields are the [ref] cells
    ([details] holds the record whose JSON rendering is shown). *)
Record State := mkState {
  TrafficCache : gmap string TrafficCacheType;
  dataSource : list Row;
  disconnectedData : list Row;
  isPause : bool;
  isActive : bool;
  keywords : string;
  details : option Row;
  showDetails : bool;
  showSettings : bool
}.

Definition initial : State :=
  {| TrafficCache := ∅;
     dataSource := [];
     disconnectedData := [];
     isPause := false;
     isActive := true;
     keywords := EmptyString;
     details := None;
     showDetails := false;
     showSettings := false |}.

(** ** JavaScript operators used by the controller *)

(** [x || y] where [x] is a number or [undefined]: [undefined] and [0] are
    falsy. *)
Definition or_number (x : option Z) (y : Z) : Z :=
  match x with
  | Some v => if (v =? 0)%Z then y else v
  | None => y
  end.

(** [x || y] on strings: the empty string is falsy. *)
Definition or_string (x y : string) : string :=
  match x with
  | EmptyString => y
  | _ => x
  end.

(** Truthiness of a string. *)
Definition truthy (x : string) : bool :=
  match x with
  | EmptyString => false
  | _ => true
  end.

(** [data.connections || []] *)
Definition or_empty (f : ConnectionsField) : list Connection :=
  match f with
  | FieldArray l => l
  | FieldUndefined | FieldNull => []
  end.

(** [s.includes(k)]: [k] occurs in [s] as a contiguous run of characters,
    compared character by character. *)
Fixpoint includes (s k : string) : bool :=
  String.prefix k s ||
  match s with
  | EmptyString => false
  | String _ s' => includes s' k
  end.

(** ** The websocket callback *)

(** [connections.some((v) => v.id === connection.id)] *)
Definition some_id (connections : list Connection) (i : string) : bool :=
  existsb (fun v => String.eqb (id v) i) connections.

(** The [forEach] over the old [dataSource]: every row whose id is not in
    the delivered array is pushed onto [disconnectedData]. *)
Definition record_disconnected (connections : list Connection)
    (live closed : list Row) : list Row :=
  fold_left
    (fun (acc : list Row) (connection : Row) =>
       if some_id connections (id connection) then acc else acc ++ [connection])
    live closed.

(** One call of the [map] callback: reads and then overwrites the cache
    entry of the connection. *)
Definition map_step (cache : gmap string TrafficCacheType)
    (connection : Connection) : gmap string TrafficCacheType * Row :=
  let entry := cache !! id connection in
  let result :=
    {| conn := connection;
       traffic := {| up := or_number (up <$> entry) (upload connection);
                     down := or_number (down <$> entry) (download connection) |} |} in
  (<[id connection := {| up := upload connection; down := download connection |}]> cache,
   result).

(** [connections.map(...)], with the cache threaded from left to right. *)
Fixpoint map_connections (cache : gmap string TrafficCacheType)
    (connections : list Connection) : gmap string TrafficCacheType * list Row :=
  match connections with
  | [] => (cache, [])
  | connection :: rest =>
      let '(cache1, result) := map_step cache connection in
      let '(cache2, results) := map_connections cache1 rest in
      (cache2, result :: results)
  end.

Definition onConnections (data : KernelConnectionsWS) (s : State) : State :=
  if isPause s then s
  else
    let connections := or_empty (connections data) in
    let closed := record_disconnected connections (dataSource s) (disconnectedData s) in
    let '(cache, live) := map_connections (TrafficCache s) connections in
    {| TrafficCache := cache;
       dataSource := live;
       disconnectedData := closed;
       isPause := isPause s;
       isActive := isActive s;
       keywords := keywords s;
       details := details s;
       showDetails := showDetails s;
       showSettings := showSettings s |}.

(** ** The speed columns *)

(** The number handed to [formatBytes] by the upload-speed column,
    [record.upload - value] with [value = record.up]. *)
Definition uploadSpeed (record : Row) : Z := (upload record - up record)%Z.

(** The download-speed column, [record.download - value]. *)
Definition downSpeed (record : Row) : Z := (download record - down record)%Z.

Section Columns.

(** [formatBytes] comes from [@/utils]; the columns only apply it. *)
Variable formatBytes : Z -> string.

Definition customRender_up (record : Row) : string :=
  formatBytes (uploadSpeed record) +:+ "/s".

Definition customRender_down (record : Row) : string :=
  formatBytes (downSpeed record) +:+ "/s".

End Columns.

(** [sort: (a, b) => b.upload - b.up - (a.upload - a.up)] *)
Definition sort_up (a b : Row) : Z :=
  (upload b - up b - (upload a - up a))%Z.

Definition sort_down (a b : Row) : Z :=
  (download b - down b - (download a - down a))%Z.

(** ** The projected view *)

Definition selection (s : State) : list Row :=
  if isActive s then dataSource s else disconnectedData s.

Definition filteredConnections (s : State) : list Row :=
  if negb (truthy (keywords s)) then selection s
  else
    List.filter
      (fun connection : Row => includes (host (metadata connection)) (keywords s))
      (selection s).

(** ** User actions *)

(** Result of awaiting a call to the kernel API or to the rule-set store. *)
Inductive Outcome :=
  | Resolved
  | Rejected (error : string).

(** What a handler does besides changing the state, in the order issued. *)
Inductive Effect :=
  | DeleteConnection (i : string)
  | AddToRuleSet (ruleset expression : string)
  | UpdateProvidersRules (ruleset : string)
  | MessageError (error : string)
  | MessageSuccess (text : string)
  | ConsoleLog (error : string).

(** The collaborators imported from [@/api/kernel] and [@/utils], as the
    answers they give. *)
Record Api := mkApi {
  deleteConnection : string -> Outcome;
  addToRuleSet : string -> string -> Outcome;
  updateProvidersRules : string -> Outcome
}.

Definition togglePause (s : State) : State :=
  {| TrafficCache := TrafficCache s;
     dataSource := dataSource s;
     disconnectedData := disconnectedData s;
     isPause := negb (isPause s);
     isActive := isActive s;
     keywords := keywords s;
     details := details s;
     showDetails := showDetails s;
     showSettings := showSettings s |}.

Definition toggleSettings (s : State) : State :=
  {| TrafficCache := TrafficCache s;
     dataSource := dataSource s;
     disconnectedData := disconnectedData s;
     isPause := isPause s;
     isActive := isActive s;
     keywords := keywords s;
     details := details s;
     showDetails := showDetails s;
     showSettings := negb (showSettings s) |}.

(** The radio bound to [isActive]. *)
Definition setActive (b : bool) (s : State) : State :=
  {| TrafficCache := TrafficCache s;
     dataSource := dataSource s;
     disconnectedData := disconnectedData s;
     isPause := isPause s;
     isActive := b;
     keywords := keywords s;
     details := details s;
     showDetails := showDetails s;
     showSettings := showSettings s |}.

(** The input bound to [keywords]. *)
Definition setKeywords (k : string) (s : State) : State :=
  {| TrafficCache := TrafficCache s;
     dataSource := dataSource s;
     disconnectedData := disconnectedData s;
     isPause := isPause s;
     isActive := isActive s;
     keywords := k;
     details := details s;
     showDetails := showDetails s;
     showSettings := showSettings s |}.

(** [disconnectedData.value.splice(0)] *)
Definition handleClearClosedConns (s : State) : State :=
  {| TrafficCache := TrafficCache s;
     dataSource := dataSource s;
     disconnectedData := [];
     isPause := isPause s;
     isActive := isActive s;
     keywords := keywords s;
     details := details s;
     showDetails := showDetails s;
     showSettings := showSettings s |}.

(** [Promise.all(dataSource.value.map(c => deleteConnection(c.id)))]: one
    call per live row; nothing is caught and no cell is written. *)
Definition handleCloseAll (s : State) : State * list Effect :=
  (s, map (fun connection : Row => DeleteConnection (id connection)) (dataSource s)).

(** Menu entry [common.details]. *)
Definition handler_details (record : Row) (s : State) : State * list Effect :=
  ({| TrafficCache := TrafficCache s;
      dataSource := dataSource s;
      disconnectedData := disconnectedData s;
      isPause := isPause s;
      isActive := isActive s;
      keywords := keywords s;
      details := Some record;
      showDetails := negb (showDetails s);
      showSettings := showSettings s |}, []).

(** Menu entry [home.connections.close]: returns at once on the closed tab;
    otherwise awaits [deleteConnection] and, if that is rejected, logs and
    reports the error.  No cell is written on either path. *)
Definition handler_close (api : Api) (record : Row) (s : State)
    : State * list Effect :=
  if negb (isActive s) then (s, [])
  else
    match deleteConnection api (id record) with
    | Resolved => (s, [DeleteConnection (id record)])
    | Rejected error =>
        (s, [DeleteConnection (id record); ConsoleLog error; MessageError error])
    end.

(** [record.metadata.host ? 'DOMAIN' : 'IP-CIDR'] *)
Definition behavior (record : Row) : string :=
  if truthy (host (metadata record)) then "DOMAIN" else "IP-CIDR".

(** [record.metadata.host || record.metadata.destinationIP + '/32,no-resolve']
    ([+] binds tighter than [||]). *)
Definition payload (record : Row) : string :=
  or_string (host (metadata record))
            (destinationIP (metadata record) +:+ "/32,no-resolve").

(** Menu entries [addToDirect], [addToProxy], [addToReject]: a rejected
    [addToRuleSet] skips the refresh and is reported; the refresh runs under
    [ignoredError], so its own outcome is dropped. *)
Definition handler_addTo (api : Api) (ruleset : string) (record : Row) (s : State)
    : State * list Effect :=
  let expression := (behavior record +:+ ",") +:+ payload record in
  match addToRuleSet api ruleset expression with
  | Resolved =>
      (s, [AddToRuleSet ruleset expression;
           UpdateProvidersRules ruleset;
           MessageSuccess "common.success"])
  | Rejected error =>
      (s, [AddToRuleSet ruleset expression; MessageError error; ConsoleLog error])
  end.

Definition Handler : Type := Row -> State -> State * list Effect.

Definition menu (api : Api) : list (string * Handler) :=
  [ ("common.details", handler_details);
    ("home.connections.close", handler_close api) ] ++
  map (fun '(label, ruleset) => (label, handler_addTo api ruleset))
      [ ("home.connections.addToDirect", "direct");
        ("home.connections.addToProxy", "proxy");
        ("home.connections.addToReject", "reject") ].

(** ** Runs of the component *)

Inductive Event :=
  | Deliver (data : KernelConnectionsWS)
  | TogglePause
  | ToggleSettings
  | SetActive (b : bool)
  | SetKeywords (k : string)
  | CloseAll
  | ClearClosed
  | Menu (label : string) (record : Row).

(** The handler registered under a label, if any. *)
Fixpoint find_handler (label : string) (items : list (string * Handler))
    : option Handler :=
  match items with
  | [] => None
  | (l, h) :: rest => if String.eqb l label then Some h else find_handler label rest
  end.

Definition step (api : Api) (e : Event) (s : State) : State * list Effect :=
  match e with
  | Deliver data => (onConnections data s, [])
  | TogglePause => (togglePause s, [])
  | ToggleSettings => (toggleSettings s, [])
  | SetActive b => (setActive b s, [])
  | SetKeywords k => (setKeywords k s, [])
  | CloseAll => if isActive s then handleCloseAll s else (s, [])
  | ClearClosed => if isActive s then (s, []) else (handleClearClosedConns s, [])
  | Menu label record =>
      match find_handler label (menu api) with
      | Some h => h record s
      | None => (s, [])
      end
  end.

Fixpoint run (api : Api) (events : list Event) (s : State) : State * list Effect :=
  match events with
  | [] => (s, [])
  | e :: rest =>
      let '(s1, out1) := step api e s in
      let '(s2, out2) := run api rest s1 in
      (s2, out1 ++ out2)
  end.

(** States the component can be in: the initial one, and any state one event
    away from a reachable one, whatever the collaborators answer. *)
Inductive reachable : State -> Prop :=
  | reachable_initial : reachable initial
  | reachable_step api e s : reachable s -> reachable (fst (step api e s)).

Definition live_ids (s : State) : list string :=
  map (fun r : Row => id r) (dataSource s).

Definition closed_ids (s : State) : list string :=
  map (fun r : Row => id r) (disconnectedData s).

(** The counters a row was built from. *)
Definition counters (c : Connection) : TrafficCacheType :=
  {| up := upload c; down := download c |}.

(** The part of the state the batches act on. *)
Definition ledger (s : State)
    : gmap string TrafficCacheType * list Row * list Row :=
  (TrafficCache s, dataSource s, disconnectedData s).

(** ** Predicates of the statements *)

(** Entries of one array that share an id carry the same counters; this is
    the case in particular when every id occurs once. *)
Definition consistent (l : list Connection) : Prop :=
  ∀ c1 c2, c1 ∈ l → c2 ∈ l → id c1 = id c2 → counters c1 = counters c2.

(** The cache knows the counters of every entry of the array. *)
Definition agrees (cache : gmap string TrafficCacheType) (l : list Connection) : Prop :=
  ∀ c, c ∈ l → cache !! id c = Some (counters c).

(** Every identity has at most one live row, and no live identity has a
    closed row. *)
Definition exclusive (s : State) : Prop :=
  NoDup (live_ids s) ∧ ∀ i, i ∈ live_ids s → i ∉ closed_ids s.

(** A delivery is regular in a state if it is discarded there, or lists
    every id once and lists no id that the closed set holds. *)
Definition regular_event (e : Event) (s : State) : Prop :=
  match e with
  | Deliver data =>
      isPause s = false →
      NoDup (map id (or_empty (connections data))) ∧
      ∀ i, i ∈ map id (or_empty (connections data)) → i ∉ closed_ids s
  | _ => True
  end.

(** States reached through regular events only. *)
Inductive regular : State -> Prop :=
  | regular_initial : regular initial
  | regular_step api e s :
      regular s → regular_event e s → regular (fst (step api e s)).

(** The rows an identity has had and that are still held, oldest first:
    its closed rows in the order they were closed, then its live rows. *)
Definition rows_of (i : string) (s : State) : list Row :=
  filter (λ r : Row, id r = i) (disconnectedData s ++ dataSource s).

(** For every identity that has a row, the cache holds the counters of its
    most recent row. *)
Definition cache_tracks (s : State) : Prop :=
  ∀ i r, last (rows_of i s) = Some r → TrafficCache s !! i = Some (counters r).

(** ** Sample data *)

(** A collaborator set that never fails. *)
Definition api_ok : Api :=
  {| deleteConnection := fun _ => Resolved;
     addToRuleSet := fun _ _ => Resolved;
     updateProvidersRules := fun _ => Resolved |}.

(** A collaborator set whose [deleteConnection] is rejected. *)
Definition api_down : Api :=
  {| deleteConnection := fun _ => Rejected "404";
     addToRuleSet := fun _ _ => Resolved;
     updateProvidersRules := fun _ => Resolved |}.

Definition meta (h ip : string) : Metadata :=
  mkMetadata "DEFAULT-mixed" "HTTPS" "tcp" "curl" "/usr/bin/curl" h EmptyString
             "127.0.0.1" "50000" ip "443" ip.

(** A connection with the given id, host, destination address and
    cumulative upload and download counters. *)
Definition sample (i h ip : string) (u d : Z) : Connection :=
  mkConnection i (meta h ip) u d "2024-01-01T00:00:00Z" ["DIRECT"] "Match"
               EmptyString.

(** A delivery whose [connections] field is the given array. *)
Definition batch (l : list Connection) : KernelConnectionsWS :=
  {| connections := FieldArray l |}.

Definition a_100 : Connection := sample "a" "example.com" "1.2.3.4" 100 0.
Definition a_40 : Connection := sample "a" "example.com" "1.2.3.4" 40 0.
Definition a_150 : Connection := sample "a" "example.com" "1.2.3.4" 150 0.
Definition a_120 : Connection := sample "a" "example.com" "1.2.3.4" 120 0.
Definition a_0_7 : Connection := sample "a" "example.com" "1.2.3.4" 0 7.
Definition a_500_9 : Connection := sample "a" "example.com" "1.2.3.4" 500 9.
Definition a_10 : Connection := sample "a" "example.com" "1.2.3.4" 10 0.
Definition a_20 : Connection := sample "a" "example.com" "1.2.3.4" 20 0.
Definition b_5 : Connection := sample "b" "test.com" "5.6.7.8" 5 5.
Definition c_ip : Connection := sample "c" EmptyString "1.2.3.4" 0 0.

(** The state after a first batch that reports [a] with 100 bytes sent. *)
Definition after_a_100 : State := onConnections (batch [a_100]) initial.

(** The live row of [a] in [after_a_100]. *)
Definition row_a_100 : Row := mkRow a_100 (mkTraffic 100 0).

(** The state in which [a] was reported with 100 bytes sent and then dropped
    out of the feed. *)
Definition a_closed : State :=
  fst (run api_ok [Deliver (batch [a_100]); Deliver (batch [])] initial).

(** A row with the given id and host. *)
Definition row_host (i h : string) : Row :=
  mkRow (sample i h "1.2.3.4" 0 0) (mkTraffic 0 0).

(** A state showing the given rows under the given keyword and tab. *)
Definition viewing (k : string) (active : bool) (live closed : list Row) : State :=
  {| TrafficCache := ∅;
     dataSource := live;
     disconnectedData := closed;
     isPause := false;
     isActive := active;
     keywords := k;
     details := None;
     showDetails := false;
     showSettings := false |}.

(** ** The other columns *)

(** The rest of a string after its first [n] characters. *)
Fixpoint skip (n : nat) (s : string) : string :=
  match n, s with
  | O, _ => s
  | S n', String _ s' => skip n' s'
  | S _, EmptyString => EmptyString
  end.

(** [s.replace(pat, rep)] for a string pattern and a replacement without
    [$] patterns: the leftmost occurrence of [pat], if any, is replaced. *)
Fixpoint replace (s pat rep : string) : string :=
  if String.prefix pat s then rep +:+ skip (String.length pat) s
  else
    match s with
    | EmptyString => EmptyString
    | String a s' => String a (replace s' pat rep)
    end.

(** [array.join(sep)] on an array of strings. *)
Fixpoint join (sep : string) (l : list string) : string :=
  match l with
  | [] => EmptyString
  | [x] => x
  | x :: rest => x +:+ sep +:+ join sep rest
  end.

(** [customRender: ({ value }) => value.replace('DEFAULT-', '')] *)
Definition customRender_inbound (record : Row) : string :=
  replace (inboundName (metadata record)) "DEFAULT-" EmptyString.

(** [value + '(' + record.metadata.network + ')'] *)
Definition customRender_type (record : Row) : string :=
  ((type (metadata record) +:+ "(") +:+ network (metadata record)) +:+ ")".

(** [(value || record.metadata.destinationIP) + ':' + record.metadata.destinationPort] *)
Definition customRender_host (record : Row) : string :=
  (or_string (host (metadata record)) (destinationIP (metadata record)) +:+ ":")
  +:+ destinationPort (metadata record).

(** [value + ':' + record.metadata.sourcePort] *)
Definition customRender_sourceIP (record : Row) : string :=
  (sourceIP (metadata record) +:+ ":") +:+ sourcePort (metadata record).

(** [value + ':' + record.metadata.destinationPort] *)
Definition customRender_remoteDestination (record : Row) : string :=
  (remoteDestination (metadata record) +:+ ":") +:+ destinationPort (metadata record).

(** [value + (record.rulePayload ? '::' + record.rulePayload : '')] *)
Definition customRender_rule (record : Row) : string :=
  rule record
  +:+ (if truthy (rulePayload record) then "::" +:+ rulePayload record
       else EmptyString).

(** [value.slice().reverse().join(' :: ')] *)
Definition customRender_chains (record : Row) : string :=
  join " :: " (rev (chains record)).

(** [sort: (a, b) => b.upload - a.upload] *)
Definition sort_upload (a b : Row) : Z := (upload b - upload a)%Z.

(** [sort: (a, b) => b.download - a.download] *)
Definition sort_download (a b : Row) : Z := (download b - download a)%Z.

(** ** The column list *)

(** A column as far as its place and its label go: [title], [key] and
    [hidden]; alignment, width, comparator and renderer ride along with the
    key and take no part in the ordering. *)
Record Column := mkColumn {
  title : string;
  key : string;
  hidden : bool
}.

(** [order.indexOf(x)]: the first position of [x], or [-1]. *)
Fixpoint indexOf_from (i : Z) (l : list string) (x : string) : Z :=
  match l with
  | [] => (-1)%Z
  | y :: rest => if String.eqb y x then i else indexOf_from (i + 1)%Z rest x
  end.

Definition indexOf (l : list string) (x : string) : Z := indexOf_from 0%Z l x.

(** [Array.prototype.sort(cmp)]: the sort is stable, so for a comparator
    that orders by a number it has one possible result, which insertion
    from the right computes: an element moves past those that must come
    before it ([cmp x y > 0]) and no further. *)
Fixpoint insert_sorted {A : Type} (cmp : A -> A -> Z) (x : A) (l : list A) : list A :=
  match l with
  | [] => [x]
  | y :: rest =>
      if (0 <? cmp x y)%Z then y :: insert_sorted cmp x rest else x :: l
  end.

Fixpoint array_sort {A : Type} (cmp : A -> A -> Z) (l : list A) : list A :=
  match l with
  | [] => []
  | x :: rest => insert_sorted cmp x (array_sort cmp rest)
  end.

(** [!visibility[key]]: a key without an entry is hidden. *)
Definition is_hidden (visibility : gmap string bool) (k : string) : bool :=
  negb (default false (visibility !! k)).

(** The array literal of [columns], in source order. *)
Definition column_table : list (string * string) :=
  [ ("home.connections.inbound", "metadata.inboundName");
    ("home.connections.type", "metadata.type");
    ("home.connections.process", "metadata.process");
    ("home.connections.processPath", "metadata.processPath");
    ("home.connections.host", "metadata.host");
    ("home.connections.sniffHost", "metadata.sniffHost");
    ("home.connections.sourceIP", "metadata.sourceIP");
    ("home.connections.remoteDestination", "metadata.remoteDestination");
    ("home.connections.rule", "rule");
    ("home.connections.chains", "chains");
    ("home.connections.uploadSpeed", "up");
    ("home.connections.downSpeed", "down");
    ("home.connections.upload", "upload");
    ("home.connections.download", "download");
    ("home.connections.time", "start") ].

Definition column_literal (visibility : gmap string bool) : list Column :=
  map (fun '(t, k) => {| title := t; key := k; hidden := is_hidden visibility k |})
      column_table.

(** [columns]: the literal sorted by
    [order.indexOf(a.key) - order.indexOf(b.key)]. *)
Definition columns (visibility : gmap string bool) (order : list string) : list Column :=
  array_sort (fun a b => (indexOf order (key a) - indexOf order (key b))%Z)
             (column_literal visibility).

(** [columnTitleMap]: for each field of [order], the title of the column
    with that key, or [undefined] ([None]) when there is none. *)
Definition columnTitleMap (visibility : gmap string bool) (order : list string)
    : gmap string (option string) :=
  fold_left
    (fun (m : gmap string (option string)) (field : string) =>
       <[field := title <$> List.find (fun column => String.eqb (key column) field)
                              (columns visibility order)]> m)
    order ∅.

(** [columnTitleMap[column] || column], the text handed to [t] for a card of
    the settings dialog. *)
Definition card_label (m : gmap string (option string)) (column : string) : string :=
  match m !! column with
  | Some (Some t) => or_string t column
  | Some None | None => column
  end.

(** The keys of the column literal. *)
Definition column_keys : list string := map snd column_table.

(** Events that leave the batches' part of the state alone. *)
Definition is_view_event (e : Event) : bool :=
  match e with
  | Deliver _ | ClearClosed => false
  | _ => true
  end.

Definition is_TogglePause (e : Event) : bool :=
  match e with
  | TogglePause => true
  | _ => false
  end.

Definition is_ClearClosed (e : Event) : bool :=
  match e with
  | ClearClosed => true
  | _ => false
  end.

(** * The proxy-group editor

    The second component at hand ([src/unnamed/part_000]) edits the proxy
    groups of a profile: [groups] is the list being edited, [fields] the
    group shown in the dialog, [proxyGroup] the sections of the selector
    opened from the dialog, and the subscriptions come from a store. *)

Module ProxyGroups.

(** An entry of a group's [proxies], and of a selector section:
    [{ id, type, name }]. *)
Module Proxy.
Record t := mk {
  id : string;
  type : string;
  name : string
}.
End Proxy.

(** [GroupsType[0]], with the fields of the literal in [handleAdd]. *)
Module Group.
Record t := mk {
  id : string;
  name : string;
  type : string;
  proxies : list Proxy.t;
  url : string;
  interval : Z;
  strategy : string;
  use : list string;
  tolerance : Z;
  lazy : bool;
  disable_udp : bool;
  filter : string
}.
End Group.

(** A subscription of the store and a section of the selector have the
    same shape, [{ id, name, proxies }]. *)
Module Subscribe.
Record t := mk {
  id : string;
  name : string;
  proxies : list Proxy.t
}.
End Subscribe.

(** Modelled from the spec: [useSubscribesStore] is declared in [@/stores],
    which is not part of the source at hand; the editor reads its list
    [subscribes] and calls [getSubscribeById], whose answer is [undefined]
    ([None]) or a subscription. *)
Record SubscribesStore := mkStore {
  subscribes : list Subscribe.t;
  getSubscribeById : string -> option Subscribe.t
}.

(** [['DIRECT', 'REJECT'].includes(x)] *)
Definition is_builtin (x : string) : bool :=
  existsb (String.eqb x) ["DIRECT"; "REJECT"].

(** [groups.value.some((v) => v.id === id)] *)
Definition some_group (groups : list Group.t) (i : string) : bool :=
  existsb (fun v => String.eqb (Group.id v) i) groups.

(** [sub.proxies.some((v) => v.id === id)] *)
Definition some_proxy (l : list Proxy.t) (i : string) : bool :=
  existsb (fun v => String.eqb (Proxy.id v) i) l.

(** [subscribesStore.subscribes.some(({ id }) => id === v)] *)
Definition some_subscribe (store : SubscribesStore) (v : string) : bool :=
  existsb (fun sub => String.eqb (Subscribe.id sub) v) (subscribes store).

(** The callback of the first [filter] in [handleClearGroup]. *)
Definition kept (store : SubscribesStore) (groups : list Group.t) (p : Proxy.t) : bool :=
  if String.eqb (Proxy.type p) "Built-In" then
    if is_builtin (Proxy.name p) then true
    else some_group groups (Proxy.id p)
  else
    match getSubscribeById store (Proxy.type p) with
    | None => false
    | Some sub => some_proxy (Subscribe.proxies sub) (Proxy.id p)
    end.

(** [handleClearGroup]: the group with [proxies] and [use] filtered; the
    other fields are not written. *)
Definition handleClearGroup (store : SubscribesStore) (groups : list Group.t)
    (g : Group.t) : Group.t :=
  {| Group.id := Group.id g;
     Group.name := Group.name g;
     Group.type := Group.type g;
     Group.proxies := List.filter (kept store groups) (Group.proxies g);
     Group.url := Group.url g;
     Group.interval := Group.interval g;
     Group.strategy := Group.strategy g;
     Group.use := List.filter (some_subscribe store) (Group.use g);
     Group.tolerance := Group.tolerance g;
     Group.lazy := Group.lazy g;
     Group.disable_udp := Group.disable_udp g;
     Group.filter := Group.filter g |}.

(** The callback of [g.proxies.some] in [hasLost]. *)
Definition lost (store : SubscribesStore) (groups : list Group.t) (p : Proxy.t) : bool :=
  if String.eqb (Proxy.type p) "Built-In" then
    if is_builtin (Proxy.id p) then false
    else forallb (fun v => negb (String.eqb (Group.id v) (Proxy.id p))) groups
  else
    match getSubscribeById store (Proxy.type p) with
    | None => true
    | Some sub =>
        forallb (fun v => negb (String.eqb (Proxy.id v) (Proxy.id p)))
                (Subscribe.proxies sub)
    end.

(** The callback of [g.use.some] in [hasLost]. *)
Definition use_lost (store : SubscribesStore) (v : string) : bool :=
  forallb (fun sub => negb (String.eqb (Subscribe.id sub) v)) (subscribes store).

Definition hasLost (store : SubscribesStore) (groups : list Group.t)
    (g : Group.t) : bool :=
  let isProxiesLost := existsb (lost store groups) (Group.proxies g) in
  let isUseLost := existsb (use_lost store) (Group.use g) in
  isProxiesLost || isUseLost.

(** [g.use.length === 0 && g.proxies.length === 0] *)
Definition needToAdd (g : Group.t) : bool :=
  Nat.eqb (length (Group.use g)) 0 && Nat.eqb (length (Group.proxies g)) 0.

(** [array.findIndex(p)], with [None] for [-1]. *)
Fixpoint findIndex {A : Type} (p : A -> bool) (l : list A) : option nat :=
  match l with
  | [] => None
  | x :: rest => if p x then Some O else option_map S (findIndex p rest)
  end.

Definition set_use (fields : Group.t) (l : list string) : Group.t :=
  {| Group.id := Group.id fields;
     Group.name := Group.name fields;
     Group.type := Group.type fields;
     Group.proxies := Group.proxies fields;
     Group.url := Group.url fields;
     Group.interval := Group.interval fields;
     Group.strategy := Group.strategy fields;
     Group.use := l;
     Group.tolerance := Group.tolerance fields;
     Group.lazy := Group.lazy fields;
     Group.disable_udp := Group.disable_udp fields;
     Group.filter := Group.filter fields |}.

Definition set_proxies (fields : Group.t) (l : list Proxy.t) : Group.t :=
  {| Group.id := Group.id fields;
     Group.name := Group.name fields;
     Group.type := Group.type fields;
     Group.proxies := l;
     Group.url := Group.url fields;
     Group.interval := Group.interval fields;
     Group.strategy := Group.strategy fields;
     Group.use := Group.use fields;
     Group.tolerance := Group.tolerance fields;
     Group.lazy := Group.lazy fields;
     Group.disable_udp := Group.disable_udp fields;
     Group.filter := Group.filter fields |}.

(** [handleAddProxy], acting on [fields]: a click on the group itself in the
    Built-In section does nothing; in the Subscribes section the id is
    spliced out of [use] at its first position or pushed; elsewhere the
    first entry of [proxies] with the id is spliced out or a new entry is
    pushed. *)
Definition handleAddProxy (groupID proxyID proxyName : string)
    (fields : Group.t) : Group.t :=
  if String.eqb groupID "Built-In" && String.eqb proxyID (Group.id fields) then fields
  else if String.eqb groupID "Subscribes" then
    match findIndex (fun v => String.eqb v proxyID) (Group.use fields) with
    | Some idx => set_use fields (delete idx (Group.use fields))
    | None => set_use fields (Group.use fields ++ [proxyID])
    end
  else
    match findIndex (fun v => String.eqb (Proxy.id v) proxyID) (Group.proxies fields) with
    | Some idx => set_proxies fields (delete idx (Group.proxies fields))
    | None =>
        set_proxies fields
          (Group.proxies fields
           ++ [{| Proxy.id := proxyID; Proxy.type := groupID; Proxy.name := proxyName |}])
    end.

(** [isInuse], as the truth value the template tests. *)
Definition isInuse (groupID proxyID : string) (fields : Group.t) : bool :=
  if String.eqb groupID "Subscribes" then
    existsb (String.eqb proxyID) (Group.use fields)
  else
    match List.find (fun v => String.eqb (Proxy.id v) proxyID) (Group.proxies fields) with
    | Some _ => true
    | None => false
    end.

(** [handleDeleteGroup]: reading [groups.value[index].name] raises a
    [TypeError] when there is no such group ([None]); otherwise the group
    is spliced out and every section of the selector loses the entries that
    carry its name. *)
Definition handleDeleteGroup (index : nat) (groups : list Group.t)
    (proxyGroup : list Subscribe.t)
    : option (list Group.t * list Subscribe.t) :=
  match groups !! index with
  | None => None
  | Some g =>
      Some (delete index groups,
            map (fun v =>
                   {| Subscribe.id := Subscribe.id v;
                      Subscribe.name := Subscribe.name v;
                      Subscribe.proxies :=
                        List.filter
                          (fun p => negb (String.eqb (Proxy.name p) (Group.name g)))
                          (Subscribe.proxies v) |})
                proxyGroup)
  end.

(** [toggleExpanded] and [isExpanded] on [expandedSet]. *)
Definition isExpanded (k : string) (expandedSet : gset string) : bool :=
  bool_decide (k ∈ expandedSet).

Definition toggleExpanded (k : string) (expandedSet : gset string) : gset string :=
  if isExpanded k expandedSet then expandedSet ∖ {[k]} else expandedSet ∪ {[k]}.

(** A run of clicks in the selector, each with the section, the id and the
    name of the entry clicked. *)
Definition clicks (l : list (string * string * string)) (fields : Group.t) : Group.t :=
  fold_left (fun f '(groupID, proxyID, proxyName) =>
               handleAddProxy groupID proxyID proxyName f) l fields.

(** No entry of the group's [proxies] is the group itself, picked from the
    Built-In section. *)
Definition no_self (fields : Group.t) : Prop :=
  ∀ p, p ∈ Group.proxies fields →
       ¬ (Proxy.type p = "Built-In" ∧ Proxy.id p = Group.id fields).

(** Sample data. *)
Definition group (i n : string) (ps : list Proxy.t) (u : list string) : Group.t :=
  Group.mk i n "select" ps "https://www.gstatic.com/generate_204" 300
           "consistent-hashing" u 150 true false EmptyString.

Definition builtin_ref (i n : string) : Proxy.t := Proxy.mk i "Built-In" n.

Definition no_store : SubscribesStore :=
  {| subscribes := []; getSubscribeById := fun _ => None |}.

Definition sub1 : Subscribe.t :=
  Subscribe.mk "s1" "Sub one" [Proxy.mk "n1" "s1" "node one"].

Definition store1 : SubscribesStore :=
  {| subscribes := [sub1];
     getSubscribeById := fun i => if String.eqb i "s1" then Some sub1 else None |}.

End ProxyGroups.

(** * Properties of the embedding *)

(** ** The diff pass and the map pass *)

Lemma some_id_elem (l : list Connection) (i : string) :
  some_id l i = true ↔ i ∈ map id l.
Proof.
  unfold some_id. induction l as [|c l IH]; simpl.
  - split; [discriminate | intros H; inversion H].
  - rewrite orb_true_iff, IH, elem_of_cons, String.eqb_eq.
    split; (intros [H|H]; [left; congruence | by right]).
Qed.

Lemma some_id_not_elem (l : list Connection) (i : string) :
  some_id l i = false ↔ i ∉ map id l.
Proof.
  rewrite <- some_id_elem. destruct (some_id l i); split; congruence.
Qed.

(** The [forEach] loop appends, in the order of the old live rows, exactly
    the rows whose id is not delivered. *)
Lemma record_disconnected_filter (l : list Connection) (live closed : list Row) :
  record_disconnected l live closed
  = closed ++ filter (λ r : Row, id r ∉ map id l) live.
Proof.
  unfold record_disconnected. revert closed.
  induction live as [|r live IH]; intros closed; simpl.
  - by rewrite app_nil_r.
  - rewrite IH. destruct (some_id l (id r)) eqn:E.
    + apply some_id_elem in E. rewrite filter_cons_False; [done | tauto].
    + apply some_id_not_elem in E. rewrite filter_cons_True by done.
      by rewrite <- app_assoc.
Qed.

Lemma map_connections_cons cache c l :
  map_connections cache (c :: l)
  = (fst (map_connections (fst (map_step cache c)) l),
     snd (map_step cache c) :: snd (map_connections (fst (map_step cache c)) l)).
Proof.
  simpl. by destruct (map_connections _ l).
Qed.

Lemma map_connections_app cache l1 l2 :
  map_connections cache (l1 ++ l2)
  = (fst (map_connections (fst (map_connections cache l1)) l2),
     snd (map_connections cache l1)
     ++ snd (map_connections (fst (map_connections cache l1)) l2)).
Proof.
  revert cache. induction l1 as [|c l1 IH]; intros cache.
  - simpl. by destruct (map_connections cache l2).
  - rewrite <- app_comm_cons, !map_connections_cons, IH. done.
Qed.

(** Every delivered connection yields one row carrying its fields. *)
Lemma map_connections_conn cache l :
  map conn (snd (map_connections cache l)) = l.
Proof.
  revert cache. induction l as [|c l IH]; intros cache; [done|].
  rewrite map_connections_cons. simpl. by rewrite IH.
Qed.

Lemma map_connections_length cache l :
  length (snd (map_connections cache l)) = length l.
Proof.
  rewrite <- (map_connections_conn cache l) at 2. by rewrite length_map.
Qed.

(** The row built at a position depends on the cache as left by the
    connections delivered before it in the same array. *)
Lemma map_connections_lookup cache pre c post :
  snd (map_connections cache (pre ++ c :: post)) !! length pre
  = Some (snd (map_step (fst (map_connections cache pre)) c)).
Proof.
  rewrite map_connections_app.
  unfold snd at 1.
  rewrite lookup_app_r by (rewrite map_connections_length; lia).
  rewrite map_connections_length, Nat.sub_diag, map_connections_cons. done.
Qed.

(** Ids that are not delivered keep their cache entry. *)
Lemma map_connections_cache_other cache l i :
  i ∉ map id l → fst (map_connections cache l) !! i = cache !! i.
Proof.
  revert cache. induction l as [|c l IH]; intros cache Hi; [done|].
  rewrite map_connections_cons. simpl fst.
  simpl in Hi. apply not_elem_of_cons in Hi as [Hne Hi].
  rewrite IH by done. by rewrite lookup_insert_ne.
Qed.

Lemma last_filter_cons {A} (P : A → Prop) `{!∀ x, Decision (P x)} (x : A) (l : list A) :
  last (filter P (x :: l))
  = match last (filter P l) with
    | Some y => Some y
    | None => if decide (P x) then Some x else None
    end.
Proof.
  rewrite filter_cons. case_decide.
  - change (x :: filter P l) with ([x] ++ filter P l). by rewrite last_app.
  - by destruct (last (filter P l)).
Qed.

Lemma filter_none {A} (P : A → Prop) `{!∀ x, Decision (P x)} (l : list A) :
  (∀ x, x ∈ l → ¬ P x) → filter P l = [].
Proof.
  induction l as [|x l IH]; intros Hall; [done|].
  rewrite filter_cons_False by (apply Hall; by left).
  apply IH. intros y Hy. apply Hall. by right.
Qed.

(** A delivered id ends up cached with the counters of its last occurrence
    in the array. *)
Lemma map_connections_cache_last cache l i c :
  last (filter (λ c : Connection, id c = i) l) = Some c →
  fst (map_connections cache l) !! i = Some (counters c).
Proof.
  revert cache. induction l as [|c0 l IH]; intros cache Hl; [done|].
  rewrite map_connections_cons. simpl fst.
  rewrite last_filter_cons in Hl.
  destruct (last (filter (λ c : Connection, id c = i) l)) as [c1|] eqn:E.
  - by apply IH.
  - case_decide as Hid; [|done]. injection Hl as <-.
    rewrite map_connections_cache_other.
    + subst i. by rewrite lookup_insert_eq.
    + intros Hin. apply last_None in E.
      apply list_elem_of_fmap in Hin as (c' & Hc' & Hin).
      assert (c' ∈ filter (λ c : Connection, id c = i) l) as Hf
        by (apply list_elem_of_filter; done).
      rewrite E in Hf. inversion Hf.
Qed.

(** ** What [onConnections] leaves in each cell *)

Lemma onConnections_paused data s :
  isPause s = true → onConnections data s = s.
Proof. intros H. unfold onConnections. by rewrite H. Qed.

Lemma onConnections_dataSource data s :
  isPause s = false →
  dataSource (onConnections data s)
  = snd (map_connections (TrafficCache s) (or_empty (connections data))).
Proof.
  intros H. unfold onConnections. rewrite H.
  by destruct (map_connections _ _).
Qed.

Lemma onConnections_TrafficCache data s :
  isPause s = false →
  TrafficCache (onConnections data s)
  = fst (map_connections (TrafficCache s) (or_empty (connections data))).
Proof.
  intros H. unfold onConnections. rewrite H.
  by destruct (map_connections _ _).
Qed.

Lemma onConnections_disconnectedData data s :
  isPause s = false →
  disconnectedData (onConnections data s)
  = disconnectedData s
    ++ filter (λ r : Row, id r ∉ map id (or_empty (connections data))) (dataSource s).
Proof.
  intros H. unfold onConnections. rewrite H.
  destruct (map_connections _ _). simpl. apply record_disconnected_filter.
Qed.

Lemma onConnections_isPause data s :
  isPause (onConnections data s) = isPause s.
Proof.
  unfold onConnections. destruct (isPause s) eqn:E; [done|].
  by destruct (map_connections _ _).
Qed.

Lemma onConnections_live_ids data s :
  isPause s = false →
  live_ids (onConnections data s) = map id (or_empty (connections data)).
Proof.
  intros H. unfold live_ids. rewrite onConnections_dataSource by done.
  rewrite <- (map_connections_conn (TrafficCache s) (or_empty (connections data))) at 2.
  by rewrite map_map.
Qed.

(** ** The baseline chosen by [||] *)

Lemma or_number_None y : or_number None y = y.
Proof. done. Qed.

Lemma or_number_nonzero v y : v ≠ 0%Z → or_number (Some v) y = v.
Proof. intros H. unfold or_number. by destruct (Z.eqb_spec v 0). Qed.

Lemma or_number_zero y : or_number (Some 0%Z) y = y.
Proof. done. Qed.

Lemma or_number_same v : or_number (Some v) v = v.
Proof. unfold or_number. by destruct (v =? 0)%Z. Qed.

(** The difference to the baseline is negative only against a cached,
    nonzero, larger counter. *)
Lemma or_number_negative (x : option Z) (y : Z) :
  (y - or_number x y < 0)%Z ↔ ∃ v, x = Some v ∧ v ≠ 0%Z ∧ (y < v)%Z.
Proof.
  destruct x as [v|]; simpl.
  - destruct (Z.eqb_spec v 0) as [->|Hv].
    + split; [lia|]. intros (v & [= <-] & Hv & _). done.
    + split.
      * intros H. exists v. repeat split; [done | lia].
      * intros (v' & [= <-] & _ & H). lia.
  - split; [lia|]. by intros (v & ? & _).
Qed.

(** The three cases of one [map] callback. *)
Lemma map_step_first_observation cache c :
  cache !! id c = None → traffic (snd (map_step cache c)) = counters c.
Proof. intros H. unfold map_step. simpl. by rewrite H. Qed.

Lemma map_step_previous cache c p :
  cache !! id c = Some p → up p ≠ 0%Z → down p ≠ 0%Z →
  traffic (snd (map_step cache c)) = p.
Proof.
  intros H Hu Hd. unfold map_step. simpl. rewrite H. simpl.
  destruct (Z.eqb_spec (up p) 0), (Z.eqb_spec (down p) 0); try done.
  by destruct p.
Qed.

(** A cached counter of zero is passed over like a missing entry: the row
    takes its own counter as baseline on that side. *)
Lemma map_step_previous_zero cache c p :
  cache !! id c = Some p → up p = 0%Z →
  up (snd (map_step cache c)) = upload c ∧ uploadSpeed (snd (map_step cache c)) = 0%Z.
Proof.
  intros H Hz. unfold uploadSpeed, map_step. simpl. rewrite H. simpl.
  rewrite Hz. simpl. lia.
Qed.

Lemma map_step_writes cache c :
  fst (map_step cache c) !! id c = Some (counters c).
Proof. unfold map_step. simpl. by rewrite lookup_insert_eq. Qed.

(** ** C1: sign of the derived rates *)

(** C1, as stated, fails: after the counters [{up:100}] and then [{up:40}]
    for the same identity, the upload rate of the live row is [-60]; it is
    not clamped to zero. *)
Lemma C1_rate_negative_on_decrease :
  let s := fst (run api_ok [Deliver (batch [a_100]); Deliver (batch [a_40])] initial) in
  map uploadSpeed (dataSource s) = [(-60)%Z] ∧
  ¬ (∀ r : Row, r ∈ dataSource s → (0 ≤ uploadSpeed r)%Z ∧ (0 ≤ downSpeed r)%Z).
Proof.
  assert (dataSource (fst (run api_ok [Deliver (batch [a_100]); Deliver (batch [a_40])] initial))
          = [mkRow a_40 (mkTraffic 100 0)]) as E by (vm_compute; reflexivity).
  cbv zeta. rewrite E. split; [reflexivity|].
  intros H. destruct (H (mkRow a_40 (mkTraffic 100 0))) as [Hup _].
  - apply list_elem_of_singleton. reflexivity.
  - vm_compute in Hup. by apply Hup.
Qed.

(** C1, amended: the rate of the row built for a delivered connection is the
    plain difference between its counter and the baseline read from the
    cache (as left by the connections before it in the same array); it is
    negative exactly when the cache holds a nonzero counter larger than the
    current one, and non-negative in every other case. *)
Theorem C1_rates_are_unclamped_differences
    (s : State) (data : KernelConnectionsWS)
    (pre : list Connection) (c : Connection) (post : list Connection) :
  isPause s = false →
  or_empty (connections data) = pre ++ c :: post →
  let cache := fst (map_connections (TrafficCache s) pre) in
  ∃ r : Row,
    dataSource (onConnections data s) !! length pre = Some r ∧
    conn r = c ∧
    uploadSpeed r = (upload c - or_number (up <$> cache !! id c) (upload c))%Z ∧
    downSpeed r = (download c - or_number (down <$> cache !! id c) (download c))%Z ∧
    ((uploadSpeed r < 0)%Z ↔
       ∃ p, cache !! id c = Some p ∧ up p ≠ 0%Z ∧ (upload c < up p)%Z) ∧
    ((downSpeed r < 0)%Z ↔
       ∃ p, cache !! id c = Some p ∧ down p ≠ 0%Z ∧ (download c < down p)%Z).
Proof.
  intros Hp Hb cache.
  exists (snd (map_step cache c)). split.
  { rewrite onConnections_dataSource, Hb by done. apply map_connections_lookup. }
  split; [done|].
  unfold uploadSpeed, downSpeed, map_step. simpl.
  split; [done|]. split; [done|]. split.
  - rewrite or_number_negative. split.
    + intros (v & Hv & Hne & Hlt).
      destruct (cache !! id c) as [p|]; [|done].
      injection Hv as <-. by exists p.
    + intros (p & -> & Hne & Hlt). by exists (up p).
  - rewrite or_number_negative. split.
    + intros (v & Hv & Hne & Hlt).
      destruct (cache !! id c) as [p|]; [|done].
      injection Hv as <-. by exists p.
    + intros (p & -> & Hne & Hlt). by exists (down p).
Qed.

Lemma C1_rates_are_unclamped_differences_witness :
  isPause after_a_100 = false ∧
  or_empty (connections (batch [a_40])) = [] ++ a_40 :: [] ∧
  ∃ r : Row,
    dataSource (onConnections (batch [a_40]) after_a_100) !! 0 = Some r ∧
    conn r = a_40 ∧
    uploadSpeed r
    = (upload a_40
       - or_number (up <$> TrafficCache after_a_100 !! id a_40) (upload a_40))%Z ∧
    downSpeed r
    = (download a_40
       - or_number (down <$> TrafficCache after_a_100 !! id a_40) (download a_40))%Z ∧
    ((uploadSpeed r < 0)%Z ↔
       ∃ p, TrafficCache after_a_100 !! id a_40 = Some p ∧ up p ≠ 0%Z
            ∧ (upload a_40 < up p)%Z) ∧
    ((downSpeed r < 0)%Z ↔
       ∃ p, TrafficCache after_a_100 !! id a_40 = Some p ∧ down p ≠ 0%Z
            ∧ (download a_40 < down p)%Z).
Proof.
  split; [reflexivity|]. split; [reflexivity|].
  apply (C1_rates_are_unclamped_differences
           after_a_100 (batch [a_40]) [] a_40 []); reflexivity.
Defined.

(** ** C2: the previous counters *)

(** C2 at an identity whose cached upload counter is zero: the preceding
    batch reported [{upload: 0, download: 7}] and the current one
    [{upload: 500, download: 9}].  The row gets [up = 500], the current
    counter, instead of the previous counter [0], so its upload rate is [0]
    instead of [500]; [down] is the previous counter [7]. *)
Theorem C2_zero_counter_is_not_used_as_previous :
  let s := fst (run api_ok [Deliver (batch [a_0_7]); Deliver (batch [a_500_9])] initial) in
  map (λ r : Row, (up r, down r)) (dataSource s) = [(500%Z, 7%Z)] ∧
  map uploadSpeed (dataSource s) = [0%Z] ∧
  map downSpeed (dataSource s) = [2%Z] ∧
  TrafficCache s !! "a" = Some (counters a_500_9).
Proof. vm_compute. done. Qed.

(** ** C3: what a batch leaves behind, and replaying it *)

Lemma NoDup_consistent (l : list Connection) :
  NoDup (map id l) → consistent l.
Proof.
  intros Hnd c1 c2 H1 H2 Hid.
  apply list_elem_of_lookup in H1 as [i1 H1].
  apply list_elem_of_lookup in H2 as [i2 H2].
  assert (i1 = i2) as ->.
  { eapply NoDup_lookup; [exact Hnd | |].
    - rewrite list_lookup_fmap, H1. reflexivity.
    - rewrite list_lookup_fmap, H2. simpl. by rewrite Hid. }
  congruence.
Qed.

Lemma map_connections_agrees cache l :
  consistent l → agrees (fst (map_connections cache l)) l.
Proof.
  intros Hc c Hin.
  destruct (last (filter (λ c' : Connection, id c' = id c) l)) as [c'|] eqn:E.
  - rewrite (map_connections_cache_last _ _ _ _ E).
    assert (c' ∈ filter (λ c' : Connection, id c' = id c) l) as Hf.
    { apply last_Some in E as [l' ->]. apply elem_of_app. right. by left. }
    apply list_elem_of_filter in Hf as [Hid Hin'].
    f_equal. by apply Hc.
  - apply last_None in E.
    assert (c ∈ filter (λ c' : Connection, id c' = id c) l) as Hf
      by (by apply list_elem_of_filter).
    rewrite E in Hf. inversion Hf.
Qed.

Lemma agrees_insert cache l c :
  consistent l → c ∈ l → agrees cache l →
  agrees (<[id c := counters c]> cache) l.
Proof.
  intros Hc Hin Ha c' Hin'.
  destruct (decide (id c = id c')) as [Hid|Hne].
  - rewrite Hid, lookup_insert_eq. f_equal. by apply Hc.
  - rewrite lookup_insert_ne by done. by apply Ha.
Qed.

(** Mapping entries of an array the cache already agrees with yields rows
    whose baselines are their own counters. *)
Lemma map_connections_replay (b : list Connection) :
  consistent b →
  ∀ l cache, (∀ c, c ∈ l → c ∈ b) → agrees cache b →
  ∀ r : Row, r ∈ snd (map_connections cache l) →
  uploadSpeed r = 0%Z ∧ downSpeed r = 0%Z.
Proof.
  intros Hc. induction l as [|c l IH]; intros cache Hsub Ha r Hr.
  - inversion Hr.
  - rewrite map_connections_cons in Hr. simpl snd in Hr.
    apply elem_of_cons in Hr as [-> | Hr].
    + unfold uploadSpeed, downSpeed, map_step. simpl.
      rewrite (Ha c) by (apply Hsub; by left). simpl.
      destruct (upload c =? 0)%Z, (download c =? 0)%Z; lia.
    + eapply (IH (fst (map_step cache c))); [| | exact Hr].
      * intros c' Hc'. apply Hsub. by right.
      * apply agrees_insert; [done | | done]. apply Hsub. by left.
Qed.

(** C3, as stated, fails on an array that lists one identity twice with
    different counters: replaying [[a:10; a:20]] gives the rates [-10] and
    [10], not zero. *)
Lemma C3_replay_with_repeated_identity :
  let data := batch [a_10; a_20] in
  let s2 := onConnections data (onConnections data initial) in
  map uploadSpeed (dataSource s2) = [(-10)%Z; 10%Z] ∧
  ¬ (∀ r : Row, r ∈ dataSource s2 → uploadSpeed r = 0%Z).
Proof.
  assert (dataSource (onConnections (batch [a_10; a_20])
                        (onConnections (batch [a_10; a_20]) initial))
          = [mkRow a_10 (mkTraffic 20 0); mkRow a_20 (mkTraffic 10 0)]) as E
    by (vm_compute; reflexivity).
  cbv zeta. rewrite E. split; [reflexivity|].
  intros H. specialize (H (mkRow a_10 (mkTraffic 20 0))).
  assert (uploadSpeed (mkRow a_10 (mkTraffic 20 0)) = 0%Z) as H0
    by (apply H; by left).
  vm_compute in H0. discriminate.
Qed.

(** C3, amended: after a batch is processed the live rows are, in order,
    the entries of the batch; the closed set has grown by the old live rows
    whose id the batch lacks, in the order of the old live set; replaying the
    batch leaves the live rows' connections and the closed set as they are;
    and the replayed rows have zero rates provided entries of the batch that
    share an identity carry the same counters. *)
Theorem C3_batch_then_replay (s : State) (data : KernelConnectionsWS) :
  isPause s = false →
  let b := or_empty (connections data) in
  let s1 := onConnections data s in
  let s2 := onConnections data s1 in
  map conn (dataSource s1) = b ∧
  disconnectedData s1
  = disconnectedData s ++ filter (λ r : Row, id r ∉ map id b) (dataSource s) ∧
  map conn (dataSource s2) = map conn (dataSource s1) ∧
  disconnectedData s2 = disconnectedData s1 ∧
  (consistent b →
   ∀ r : Row, r ∈ dataSource s2 → uploadSpeed r = 0%Z ∧ downSpeed r = 0%Z).
Proof.
  intros Hp b s1 s2.
  assert (isPause s1 = false) as Hp1
    by (unfold s1; by rewrite onConnections_isPause).
  assert (map conn (dataSource s1) = b) as H1.
  { unfold s1. rewrite onConnections_dataSource by done.
    apply map_connections_conn. }
  split; [done|]. split.
  { unfold s1. by apply onConnections_disconnectedData. }
  split.
  { rewrite H1. unfold s2. rewrite onConnections_dataSource by done.
    apply map_connections_conn. }
  split.
  { unfold s2. rewrite onConnections_disconnectedData by done.
    fold b. rewrite filter_none; [by rewrite app_nil_r|].
    intros r Hr Hnot. apply Hnot.
    rewrite <- H1, map_map. apply (list_elem_of_fmap_2 (λ r : Row, id r)), Hr. }
  intros Hc r Hr.
  unfold s2 in Hr. rewrite onConnections_dataSource in Hr by done.
  eapply (map_connections_replay b Hc b); [done | | exact Hr].
  unfold s1. rewrite onConnections_TrafficCache by done.
  by apply map_connections_agrees.
Qed.

Lemma C3_batch_then_replay_witness :
  isPause after_a_100 = false ∧
  let data := batch [a_40; b_5] in
  let b := or_empty (connections data) in
  let s1 := onConnections data after_a_100 in
  let s2 := onConnections data s1 in
  map conn (dataSource s1) = b ∧
  disconnectedData s1
  = disconnectedData after_a_100
    ++ filter (λ r : Row, id r ∉ map id b) (dataSource after_a_100) ∧
  map conn (dataSource s2) = map conn (dataSource s1) ∧
  disconnectedData s2 = disconnectedData s1 ∧
  consistent b ∧
  ∀ r : Row, r ∈ dataSource s2 → uploadSpeed r = 0%Z ∧ downSpeed r = 0%Z.
Proof.
  split; [reflexivity|]. cbv zeta.
  destruct (C3_batch_then_replay after_a_100 (batch [a_40; b_5]) eq_refl)
    as (H1 & H2 & H3 & H4 & H5).
  assert (consistent (or_empty (connections (batch [a_40; b_5])))) as Hc.
  { apply NoDup_consistent. simpl. apply NoDup_cons. split.
    - intros H. apply list_elem_of_singleton in H. discriminate.
    - apply NoDup_singleton. }
  repeat split; try assumption; apply (H5 Hc); assumption.
Defined.

(** ** Events other than deliveries *)

Lemma ledger_eq s s' :
  ledger s' = ledger s →
  TrafficCache s' = TrafficCache s ∧
  dataSource s' = dataSource s ∧
  disconnectedData s' = disconnectedData s.
Proof.
  intros H. repeat split.
  - exact (f_equal (λ x, fst (fst x)) H).
  - exact (f_equal (λ x, snd (fst x)) H).
  - exact (f_equal snd H).
Qed.

Lemma handler_details_ledger record s :
  ledger (fst (handler_details record s)) = ledger s.
Proof. done. Qed.

Lemma handler_close_state api record s :
  fst (handler_close api record s) = s.
Proof.
  unfold handler_close.
  destruct (negb (isActive s)); [done|].
  by destruct (deleteConnection api (id record)).
Qed.

Lemma handler_addTo_state api ruleset record s :
  fst (handler_addTo api ruleset record s) = s.
Proof.
  unfold handler_addTo. by destruct (addToRuleSet api ruleset _).
Qed.

Lemma find_handler_Forall (P : Handler → Prop) label items h :
  Forall (λ item, P (snd item)) items →
  find_handler label items = Some h → P h.
Proof.
  induction 1 as [|[l h'] items Hh _ IH]; simpl; [done|].
  destruct (String.eqb l label); [|done]. by intros [= <-].
Qed.

Lemma menu_ledger api label h record s :
  find_handler label (menu api) = Some h →
  ledger (fst (h record s)) = ledger s.
Proof.
  apply (find_handler_Forall (λ h, ledger (fst (h record s)) = ledger s)).
  unfold menu. simpl.
  repeat (apply Forall_cons; split); simpl; try done;
    first [ by rewrite handler_close_state | by rewrite handler_addTo_state ].
Qed.

(** Only a delivery and the clear button touch the ledger. *)
Lemma step_ledger api e s :
  ledger (fst (step api e s))
  = match e with
    | Deliver data => ledger (onConnections data s)
    | ClearClosed =>
        if isActive s then ledger s else (TrafficCache s, dataSource s, [])
    | _ => ledger s
    end.
Proof.
  destruct e; unfold step; try done.
  - by destruct (isActive s).
  - by destruct (isActive s).
  - destruct (find_handler label (menu api)) as [h|] eqn:E; [|done].
    by eapply menu_ledger.
Qed.

Lemma reachable_run api events s :
  reachable s → reachable (fst (run api events s)).
Proof.
  revert s. induction events as [|e rest IH]; intros s Hs; [done|].
  simpl. destruct (step api e s) as [s1 out1] eqn:E1.
  destruct (run api rest s1) as [s2 out2] eqn:E2. simpl.
  change s2 with (fst (s2, out2)). rewrite <- E2. apply IH.
  change s1 with (fst (s1, out1)). rewrite <- E1. by constructor.
Qed.

(** ** C4: one live row per identity, live and closed exclusive *)

Lemma closed_ids_onConnections data s i :
  isPause s = false →
  i ∈ closed_ids (onConnections data s)
  ↔ i ∈ closed_ids s
    ∨ (i ∈ live_ids s ∧ i ∉ map id (or_empty (connections data))).
Proof.
  intros Hp. unfold closed_ids, live_ids.
  rewrite onConnections_disconnectedData by done.
  rewrite map_app, elem_of_app.
  apply or_iff_compat_l. split.
  - intros H. apply list_elem_of_fmap in H as (r & -> & Hr).
    apply list_elem_of_filter in Hr as [Hout Hr].
    split; [|done]. apply (list_elem_of_fmap_2 (λ r : Row, id r)), Hr.
  - intros [H Hout]. apply list_elem_of_fmap in H as (r & -> & Hr).
    apply (list_elem_of_fmap_2 (λ r : Row, id r)).
    by apply list_elem_of_filter.
Qed.

(** Right after a batch is processed, exclusivity holds exactly when the
    batch is regular; it does not depend on the state before. *)
Lemma onConnections_exclusive_iff data s :
  isPause s = false →
  exclusive (onConnections data s)
  ↔ NoDup (map id (or_empty (connections data))) ∧
    ∀ i, i ∈ map id (or_empty (connections data)) → i ∉ closed_ids s.
Proof.
  intros Hp. unfold exclusive.
  rewrite onConnections_live_ids by done.
  apply and_iff_compat_l. split.
  - intros H i Hi Hc. apply (H i Hi).
    apply closed_ids_onConnections; [done | by left].
  - intros H i Hi Hc.
    apply closed_ids_onConnections in Hc as [Hc | [_ Hout]]; [|done | done].
    by apply (H i).
Qed.

Lemma exclusive_ledger s s' :
  dataSource s' = dataSource s →
  (disconnectedData s' = disconnectedData s ∨ disconnectedData s' = []) →
  exclusive s → exclusive s'.
Proof.
  intros Hl Hc [Hnd Hex]. unfold exclusive, live_ids, closed_ids in *.
  rewrite Hl. split; [done|].
  destruct Hc as [-> | ->]; [done|].
  intros i _ H. inversion H.
Qed.

Lemma step_exclusive api e s :
  exclusive s → regular_event e s → exclusive (fst (step api e s)).
Proof.
  intros Hex Hreg.
  pose proof (step_ledger api e s) as Hl.
  destruct e;
    try (apply ledger_eq in Hl as (_ & Hd & Hc);
         by apply (exclusive_ledger s); [| left |]).
  - simpl. destruct (isPause s) eqn:Hp.
    + by rewrite onConnections_paused.
    + apply onConnections_exclusive_iff; [done|]. by apply Hreg.
  - destruct (isActive s).
    + apply ledger_eq in Hl as (_ & Hd & Hc).
      by apply (exclusive_ledger s); [| left |].
    + apply (exclusive_ledger s); [| right |done].
      * exact (f_equal (λ x, snd (fst x)) Hl).
      * exact (f_equal snd Hl).
Qed.

(** C4, as stated, fails in two ways.  An identity that was closed and is
    delivered again is live while its closed row is still in the closed set;
    and an array that lists an identity twice yields two live rows for it.
    Both states are reachable. *)
Lemma C4_live_and_closed_overlap :
  let s := fst (run api_ok [Deliver (batch [a_100]); Deliver (batch []);
                            Deliver (batch [a_150])] initial) in
  let s' := fst (run api_ok [Deliver (batch [a_10; a_20])] initial) in
  (reachable s ∧ live_ids s = ["a"] ∧ closed_ids s = ["a"] ∧ ¬ exclusive s) ∧
  (reachable s' ∧ live_ids s' = ["a"; "a"] ∧ ¬ exclusive s').
Proof.
  cbv zeta. split.
  - split; [apply reachable_run; constructor|].
    assert (live_ids (fst (run api_ok [Deliver (batch [a_100]); Deliver (batch []);
                                       Deliver (batch [a_150])] initial)) = ["a"]) as El
      by (vm_compute; reflexivity).
    assert (closed_ids (fst (run api_ok [Deliver (batch [a_100]); Deliver (batch []);
                                         Deliver (batch [a_150])] initial)) = ["a"]) as Ec
      by (vm_compute; reflexivity).
    split; [done|]. split; [done|].
    intros [_ H]. apply (H "a"); [rewrite El | rewrite Ec]; by left.
  - split; [apply reachable_run; constructor|].
    assert (live_ids (fst (run api_ok [Deliver (batch [a_10; a_20])] initial))
            = ["a"; "a"]) as El by (vm_compute; reflexivity).
    split; [done|].
    intros [H _]. rewrite El in H. apply NoDup_cons in H as [H _].
    apply H. by left.
Qed.

(** C4, amended: in every state reached through events whose processed
    batches list each identity once and list no identity held by the closed
    set, there is at most one live row per identity and no identity is both
    live and closed. *)
Theorem C4_exclusive_on_regular_runs (s : State) :
  regular s → exclusive s.
Proof.
  induction 1 as [|api e s Hs IH Hreg].
  - split; [constructor|]. intros i H. inversion H.
  - by apply step_exclusive.
Qed.

Lemma C4_exclusive_on_regular_runs_witness :
  let s := fst (step api_ok (Deliver (batch [a_40; b_5]))
             (fst (step api_ok (Deliver (batch [a_100])) initial))) in
  regular s ∧ exclusive s.
Proof.
  assert (regular
            (fst (step api_ok (Deliver (batch [a_40; b_5]))
               (fst (step api_ok (Deliver (batch [a_100])) initial))))) as Hreg.
  { apply regular_step.
    - apply regular_step; [apply regular_initial|].
      intros _. simpl. split.
      + apply NoDup_singleton.
      + intros i _ H. inversion H.
    - intros _. simpl. split.
      + apply NoDup_cons. split; [|apply NoDup_singleton].
        intros H. apply list_elem_of_singleton in H. discriminate.
      + intros i _ H. vm_compute in H. inversion H. }
  split; [exact Hreg|].
  apply (C4_exclusive_on_regular_runs _ Hreg).
Defined.

(** ** The cache is never evicted *)

Lemma filter_map {A B} (f : A → B) (P : B → Prop) `{!∀ y, Decision (P y)}
    (l : list A) :
  filter P (map f l) = map f (filter (λ x, P (f x)) l).
Proof.
  induction l as [|x l IH]; [done|]. simpl map.
  rewrite !filter_cons, IH. by case_decide.
Qed.

Lemma last_map {A B} (f : A → B) (l : list A) :
  last (map f l) = option_map f (last l).
Proof.
  induction l as [|x [|y l] IH]; [done | done |].
  change (last (f x :: map f (y :: l)) = option_map f (last (y :: l))).
  exact IH.
Qed.

Lemma filter_filter_absorb {A} (P Q : A → Prop)
    `{!∀ x, Decision (P x)} `{!∀ x, Decision (Q x)} (l : list A) :
  (∀ x, x ∈ l → P x → Q x) → filter P (filter Q l) = filter P l.
Proof.
  induction l as [|x l IH]; intros Hall; [done|].
  assert (filter P (filter Q l) = filter P l) as IH'
    by (apply IH; intros y Hy; apply Hall; by right).
  destruct (decide (P x)) as [HP|HP].
  - rewrite (filter_cons_True Q) by (apply Hall; [by left | done]).
    rewrite !(filter_cons_True P) by done. by rewrite IH'.
  - rewrite (filter_cons_False P) by done.
    destruct (decide (Q x)).
    + rewrite (filter_cons_True Q), (filter_cons_False P) by done. exact IH'.
    + rewrite (filter_cons_False Q) by done. exact IH'.
Qed.

Lemma onConnections_cache_tracks data s :
  cache_tracks s → cache_tracks (onConnections data s).
Proof.
  intros Ht. destruct (isPause s) eqn:Hp; [by rewrite onConnections_paused|].
  intros i r. unfold rows_of.
  rewrite onConnections_disconnectedData, onConnections_dataSource,
    onConnections_TrafficCache by done.
  set (b := or_empty (connections data)).
  set (live' := snd (map_connections (TrafficCache s) b)).
  assert (map conn live' = b) as Hconn by apply map_connections_conn.
  rewrite !filter_app, last_app.
  destruct (last (filter (λ r : Row, id r = i) live')) as [r'|] eqn:E.
  - intros [= ->]. apply map_connections_cache_last.
    rewrite <- Hconn, filter_map, last_map, E. done.
  - intros Hlast.
    assert (i ∉ map id b) as Hout.
    { intros Hin. rewrite <- Hconn, map_map in Hin.
      apply list_elem_of_fmap in Hin as (r' & -> & Hr').
      apply last_None in E.
      assert (r' ∈ filter (λ r : Row, id r = id r') live') as Hf
        by (by apply list_elem_of_filter).
      rewrite E in Hf. inversion Hf. }
    rewrite map_connections_cache_other by done.
    apply Ht. unfold rows_of. rewrite filter_app.
    rewrite filter_filter_absorb in Hlast; [done|].
    intros x _ <-. done.
Qed.

Lemma step_cache_tracks api e s :
  cache_tracks s → cache_tracks (fst (step api e s)).
Proof.
  intros Ht. pose proof (step_ledger api e s) as Hl.
  assert (∀ s', ledger s' = ledger s → cache_tracks s') as Hsame.
  { intros s' H. apply ledger_eq in H as (Hc & Hd & Hx).
    intros i r. unfold rows_of. rewrite Hc, Hd, Hx. apply Ht. }
  destruct e; try (by apply Hsame).
  - by apply onConnections_cache_tracks.
  - destruct (isActive s); [by apply Hsame|].
    intros i r. unfold rows_of.
    rewrite (f_equal snd Hl : disconnectedData _ = []).
    rewrite (f_equal (λ x, snd (fst x)) Hl : dataSource _ = dataSource s).
    rewrite (f_equal (λ x, fst (fst x)) Hl : TrafficCache _ = TrafficCache s).
    simpl. intros Hlast. apply Ht. unfold rows_of.
    by rewrite filter_app, last_app, Hlast.
Qed.

(** The cache of a reachable state tracks the most recent row of every
    identity, closed ones included. *)
Lemma reachable_cache_tracks s : reachable s → cache_tracks s.
Proof.
  induction 1 as [|api e s _ IH].
  - intros i r H. done.
  - by apply step_cache_tracks.
Qed.

(** ** C5: a closed identity that is delivered again *)

(** C5, as stated, fails: [a] is reported with 100 bytes sent, drops out of
    the feed, and is reported again with 150.  Its new live row takes the
    cached 100 as baseline, not its own 150, and shows the rate 50. *)
Lemma C5_reappearing_identity_keeps_old_baseline :
  let s := fst (run api_ok [Deliver (batch [a_100]); Deliver (batch []);
                            Deliver (batch [a_150])] initial) in
  dataSource s = [mkRow a_150 (mkTraffic 100 0)] ∧
  map uploadSpeed (dataSource s) = [50%Z] ∧
  ¬ (∀ r : Row, r ∈ dataSource s → up r = upload r ∧ uploadSpeed r = 0%Z).
Proof.
  assert (dataSource (fst (run api_ok [Deliver (batch [a_100]); Deliver (batch []);
                                       Deliver (batch [a_150])] initial))
          = [mkRow a_150 (mkTraffic 100 0)]) as E by (vm_compute; reflexivity).
  cbv zeta. rewrite E. split; [done|]. split; [reflexivity|].
  intros H. destruct (H (mkRow a_150 (mkTraffic 100 0))) as [_ H0]; [by left|].
  vm_compute in H0. discriminate.
Qed.

(** C5, amended: when an identity that is closed and not live is delivered
    again, it gets a new live row built from the delivered entry and the
    closed set keeps its rows (the closed record is neither removed nor
    updated); the baseline of the new row is not fresh but comes from the
    counters of its most recent closed row, which the cache still holds: the
    rate is the current counter minus that counter whenever the latter is
    nonzero. *)
Theorem C5_reappearing_identity
    (s : State) (data : KernelConnectionsWS)
    (pre : list Connection) (c : Connection) (post : list Connection)
    (old : Row) :
  reachable s →
  isPause s = false →
  id c ∉ live_ids s →
  last (filter (λ r : Row, id r = id c) (disconnectedData s)) = Some old →
  or_empty (connections data) = pre ++ c :: post →
  id c ∉ map id pre →
  let s' := onConnections data s in
  ∃ r : Row,
    dataSource s' !! length pre = Some r ∧
    conn r = c ∧
    up r = or_number (Some (upload old)) (upload c) ∧
    down r = or_number (Some (download old)) (download c) ∧
    (upload old ≠ 0%Z → uploadSpeed r = (upload c - upload old)%Z) ∧
    (download old ≠ 0%Z → downSpeed r = (download c - download old)%Z) ∧
    old ∈ disconnectedData s' ∧
    ∃ more, disconnectedData s' = disconnectedData s ++ more.
Proof.
  intros Hreach Hp Hlive Hold Hb Hpre s'.
  assert (TrafficCache s !! id c = Some (counters old)) as Hcache.
  { apply (reachable_cache_tracks s Hreach). unfold rows_of.
    rewrite filter_app, last_app.
    rewrite (filter_none _ (dataSource s)); [by rewrite Hold|].
    intros r Hr Hid. apply Hlive. rewrite <- Hid.
    apply (list_elem_of_fmap_2 (λ r : Row, id r)), Hr. }
  set (cache := fst (map_connections (TrafficCache s) pre)).
  assert (cache !! id c = Some (counters old)) as Hcache'
    by (unfold cache; by rewrite map_connections_cache_other).
  exists (snd (map_step cache c)).
  split.
  { unfold s'. rewrite onConnections_dataSource, Hb by done.
    apply map_connections_lookup. }
  split; [done|].
  unfold uploadSpeed, downSpeed, map_step. simpl. rewrite Hcache'. simpl.
  split; [done|]. split; [done|].
  split. { intros Hne. by destruct (Z.eqb_spec (upload old) 0). }
  split. { intros Hne. by destruct (Z.eqb_spec (download old) 0). }
  unfold s'. rewrite onConnections_disconnectedData by done. split.
  - apply elem_of_app. left.
    assert (old ∈ filter (λ r : Row, id r = id c) (disconnectedData s)) as Hf.
    { apply last_Some in Hold as [l' ->]. apply elem_of_app. right. by left. }
    by apply list_elem_of_filter in Hf as [_ Hf].
  - by eexists.
Qed.

Lemma C5_reappearing_identity_witness :
  let old := mkRow a_100 (mkTraffic 100 0) in
  let s' := onConnections (batch [a_150]) a_closed in
  ∃ r : Row,
    dataSource s' !! 0 = Some r ∧
    conn r = a_150 ∧
    up r = or_number (Some (upload old)) (upload a_150) ∧
    down r = or_number (Some (download old)) (download a_150) ∧
    (upload old ≠ 0%Z → uploadSpeed r = (upload a_150 - upload old)%Z) ∧
    (download old ≠ 0%Z → downSpeed r = (download a_150 - download old)%Z) ∧
    old ∈ disconnectedData s' ∧
    ∃ more, disconnectedData s' = disconnectedData a_closed ++ more.
Proof.
  apply (C5_reappearing_identity a_closed (batch [a_150]) [] a_150 []
           (mkRow a_100 (mkTraffic 100 0))).
  - apply reachable_run. constructor.
  - reflexivity.
  - intros H. vm_compute in H. inversion H.
  - vm_compute. reflexivity.
  - reflexivity.
  - intros H. inversion H.
Defined.

(** ** C6: the close entry of the context menu *)

Lemma menu_close api :
  find_handler "home.connections.close" (menu api) = Some (handler_close api).
Proof. reflexivity. Qed.

(** C6, as stated, fails on success: [a] is live, the active tab is shown and
    [deleteConnection] resolves, yet the row of [a] is still in the live set
    when the handler is done. *)
Lemma C6_close_success_leaves_row_live :
  let s' := fst (step api_ok (Menu "home.connections.close" row_a_100) after_a_100) in
  dataSource after_a_100 = [row_a_100] ∧
  isActive after_a_100 = true ∧
  snd (step api_ok (Menu "home.connections.close" row_a_100) after_a_100)
  = [DeleteConnection "a"] ∧
  dataSource s' = [row_a_100] ∧
  ¬ ("a" ∉ live_ids s').
Proof.
  cbv zeta. repeat split; try (vm_compute; reflexivity).
  intros H. apply H.
  assert (live_ids (fst (step api_ok (Menu "home.connections.close" row_a_100)
                          after_a_100)) = ["a"]) as -> by (vm_compute; reflexivity).
  by left.
Qed.

(** C6, amended: the close handler never changes the state.  On the active
    tab it calls [deleteConnection] once; when that call is rejected the
    error is logged and reported, when it resolves nothing else happens; on
    the closed tab it does nothing.  The row leaves the live set only when a
    later processed batch no longer lists its identity, and that batch
    appends it to the closed set. *)
Theorem C6_close_leaves_state_unchanged (api : Api) (record : Row) (s : State) :
  fst (step api (Menu "home.connections.close" record) s) = s ∧
  (isActive s = true → deleteConnection api (id record) = Resolved →
   snd (handler_close api record s) = [DeleteConnection (id record)]) ∧
  (∀ error, isActive s = true → deleteConnection api (id record) = Rejected error →
   snd (handler_close api record s)
   = [DeleteConnection (id record); ConsoleLog error; MessageError error]) ∧
  (isActive s = false → snd (handler_close api record s) = []) ∧
  (∀ data, isPause s = false → record ∈ dataSource s →
   id record ∉ map id (or_empty (connections data)) →
   let s' := onConnections data (fst (handler_close api record s)) in
   (id record ∉ live_ids s') ∧ (record ∈ disconnectedData s')).
Proof.
  split.
  { unfold step. rewrite menu_close. apply handler_close_state. }
  unfold handler_close. split; [|split; [|split]].
  - by intros -> ->.
  - by intros error -> ->.
  - by intros ->.
  - intros data Hp Hin Hout. fold (handler_close api record s).
    rewrite handler_close_state. cbv zeta. split.
    + by rewrite onConnections_live_ids.
    + rewrite onConnections_disconnectedData by done.
      apply elem_of_app. right. by apply list_elem_of_filter.
Qed.

Lemma C6_close_leaves_state_unchanged_witness :
  fst (step api_down (Menu "home.connections.close" row_a_100) after_a_100)
  = after_a_100 ∧
  snd (handler_close api_down row_a_100 after_a_100)
  = [DeleteConnection "a"; ConsoleLog "404"; MessageError "404"] ∧
  snd (handler_close api_ok row_a_100 after_a_100) = [DeleteConnection "a"] ∧
  snd (handler_close api_ok row_a_100 (setActive false after_a_100)) = [] ∧
  let s' :=
    onConnections (batch [b_5]) (fst (handler_close api_ok row_a_100 after_a_100)) in
  (id row_a_100 ∉ live_ids s') ∧ (row_a_100 ∈ disconnectedData s').
Proof.
  split; [apply (C6_close_leaves_state_unchanged api_down row_a_100 after_a_100)|].
  split.
  { apply (C6_close_leaves_state_unchanged api_down row_a_100 after_a_100);
      reflexivity. }
  split.
  { apply (C6_close_leaves_state_unchanged api_ok row_a_100 after_a_100);
      reflexivity. }
  split.
  { apply (C6_close_leaves_state_unchanged api_ok row_a_100
             (setActive false after_a_100)); reflexivity. }
  apply (C6_close_leaves_state_unchanged api_ok row_a_100 after_a_100).
  - reflexivity.
  - vm_compute. by left.
  - intros H. vm_compute in H. apply list_elem_of_singleton in H. discriminate.
Defined.

(** ** C7: the rule expression *)

Lemma menu_addTo api :
  find_handler "home.connections.addToDirect" (menu api)
  = Some (handler_addTo api "direct") ∧
  find_handler "home.connections.addToProxy" (menu api)
  = Some (handler_addTo api "proxy") ∧
  find_handler "home.connections.addToReject" (menu api)
  = Some (handler_addTo api "reject").
Proof. repeat split. Qed.

(** C7: the handler submits one expression to [addToRuleSet], before
    anything else it does; the expression is ["DOMAIN,<host>"] when the host
    is non-empty and ["IP-CIDR,<destinationIP>/32,no-resolve"] when it is
    empty. *)
Theorem C7_rule_expression (api : Api) (ruleset : string) (record : Row) (s : State) :
  ∃ expression rest,
    snd (handler_addTo api ruleset record s)
    = AddToRuleSet ruleset expression :: rest ∧
    (∀ ruleset' expression', AddToRuleSet ruleset' expression' ∉ rest) ∧
    (host (metadata record) ≠ EmptyString →
     expression = "DOMAIN," +:+ host (metadata record)) ∧
    (host (metadata record) = EmptyString →
     expression = "IP-CIDR," +:+ (destinationIP (metadata record) +:+ "/32,no-resolve")).
Proof.
  unfold handler_addTo.
  set (expression := (behavior record +:+ ",") +:+ payload record).
  assert ((host (metadata record) ≠ EmptyString →
           expression = "DOMAIN," +:+ host (metadata record)) ∧
          (host (metadata record) = EmptyString →
           expression
           = "IP-CIDR," +:+ (destinationIP (metadata record) +:+ "/32,no-resolve")))
    as [Hd Hi].
  { unfold expression, behavior, payload.
    destruct (host (metadata record)) as [|a h]; simpl; split; intros H;
      first [reflexivity | done]. }
  destruct (addToRuleSet api ruleset expression);
    eexists expression, _; (split; [reflexivity|]); (split; [|done]);
    intros r' e' H;
    repeat (apply elem_of_cons in H as [H|H]; [discriminate|]);
    inversion H.
Qed.

Lemma C7_rule_expression_witness :
  (∃ rest,
     snd (handler_addTo api_ok "direct" row_a_100 initial)
     = AddToRuleSet "direct" "DOMAIN,example.com" :: rest) ∧
  (∃ rest,
     snd (handler_addTo api_ok "reject"
            (mkRow c_ip (mkTraffic 0 0)) initial)
     = AddToRuleSet "reject" "IP-CIDR,1.2.3.4/32,no-resolve" :: rest).
Proof.
  split.
  - destruct (C7_rule_expression api_ok "direct" row_a_100 initial)
      as (e & rest & Hout & _ & Hd & _).
    exists rest. rewrite Hout, Hd; [reflexivity | discriminate].
  - destruct (C7_rule_expression api_ok "reject"
                (mkRow c_ip (mkTraffic 0 0)) initial)
      as (e & rest & Hout & _ & _ & Hi).
    exists rest. rewrite Hout, Hi; reflexivity.
Defined.

(** ** C8: pause and resume *)

Lemma togglePause_twice s : togglePause (togglePause s) = s.
Proof. destruct s. unfold togglePause. simpl. by rewrite negb_involutive. Qed.

(** While the component is paused, a run of deliveries changes nothing and
    does nothing. *)
Lemma run_deliveries_paused api (l : list KernelConnectionsWS) s :
  isPause s = true → run api (map Deliver l) s = (s, []).
Proof.
  intros Hp. induction l as [|d l IH]; [done|].
  simpl. rewrite onConnections_paused by done. by rewrite IH.
Qed.

Lemma run_app api l1 l2 s :
  run api (l1 ++ l2) s
  = (fst (run api l2 (fst (run api l1 s))),
     snd (run api l1 s) ++ snd (run api l2 (fst (run api l1 s)))).
Proof.
  revert s. induction l1 as [|e l1 IH]; intros s.
  - simpl. by destruct (run api l2 s).
  - simpl. destruct (step api e s) as [s1 out1].
    rewrite IH. destruct (run api l1 s1) as [s2 out2]. simpl.
    by rewrite app_assoc.
Qed.

(** C8, as stated, fails for an identity that was tracked before the
    pause: [a] is reported with 100 bytes sent, the component is paused, a
    batch reporting 120 is discarded, the component is resumed, and the next
    batch reports 150.  The new row takes the pre-pause counter 100 as
    baseline, not its own counter, and shows the rate 50: the whole delta
    over the paused gap. *)
Lemma C8_resume_shows_delta_over_the_gap :
  let s := fst (run api_ok [Deliver (batch [a_100]); TogglePause;
                            Deliver (batch [a_120]); TogglePause;
                            Deliver (batch [a_150])] initial) in
  dataSource s = [mkRow a_150 (mkTraffic 100 0)] ∧
  map uploadSpeed (dataSource s) = [50%Z] ∧
  ¬ (∀ r : Row, r ∈ dataSource s → up r = upload r ∧ uploadSpeed r = 0%Z).
Proof.
  assert (dataSource (fst (run api_ok [Deliver (batch [a_100]); TogglePause;
                                       Deliver (batch [a_120]); TogglePause;
                                       Deliver (batch [a_150])] initial))
          = [mkRow a_150 (mkTraffic 100 0)]) as E by (vm_compute; reflexivity).
  cbv zeta. rewrite E. split; [done|]. split; [reflexivity|].
  intros H. destruct (H (mkRow a_150 (mkTraffic 100 0))) as [_ H0]; [by left|].
  vm_compute in H0. discriminate.
Qed.

(** C8, amended: a batch that arrives while paused leaves the whole state
    as it is; pausing, receiving any batches, and resuming gives back the
    state from before the pause and produces no effect, so the next batch
    is processed exactly as it would have been without the pause.  In that
    batch, at the first occurrence of an identity: one that the cache did
    not hold before the pause gets its own counters as baseline, hence zero
    rates; one that the cache held keeps the pre-pause counters as baseline,
    so that its rate is the current counter minus the pre-pause counter
    whenever the latter is nonzero, the delta of the whole paused gap.
    Afterwards the cache holds, for every delivered identity, the counters
    of its last occurrence in the batch, and is unchanged elsewhere. *)
Theorem C8_pause_discards_batches
    (api : Api) (s : State) (discarded : list KernelConnectionsWS)
    (data : KernelConnectionsWS) :
  isPause s = false →
  let paused := togglePause s in
  let resumed := fst (run api (TogglePause :: map Deliver discarded ++ [TogglePause]) s) in
  let s' := onConnections data resumed in
  (∀ d, onConnections d paused = paused) ∧
  run api (TogglePause :: map Deliver discarded ++ [TogglePause]) s = (s, []) ∧
  s' = onConnections data s ∧
  (∀ pre c post,
     or_empty (connections data) = pre ++ c :: post →
     id c ∉ map id pre →
     ∃ r : Row,
       dataSource s' !! length pre = Some r ∧
       conn r = c ∧
       (TrafficCache s !! id c = None →
        traffic r = counters c ∧ uploadSpeed r = 0%Z ∧ downSpeed r = 0%Z) ∧
       (∀ p, TrafficCache s !! id c = Some p →
             up r = or_number (Some (up p)) (upload c) ∧
             down r = or_number (Some (down p)) (download c) ∧
             (up p ≠ 0%Z → uploadSpeed r = (upload c - up p)%Z) ∧
             (down p ≠ 0%Z → downSpeed r = (download c - down p)%Z))) ∧
  (∀ c, last (filter (λ c' : Connection, id c' = id c) (or_empty (connections data)))
        = Some c →
        TrafficCache s' !! id c = Some (counters c)) ∧
  (∀ i, i ∉ map id (or_empty (connections data)) →
        TrafficCache s' !! i = TrafficCache s !! i).
Proof.
  intros Hp paused resumed s'.
  assert (isPause paused = true) as Hpaused by (unfold paused; simpl; by rewrite Hp).
  assert (run api (TogglePause :: map Deliver discarded ++ [TogglePause]) s = (s, []))
    as Hrun.
  { change (TogglePause :: map Deliver discarded ++ [TogglePause])
      with ([TogglePause] ++ map Deliver discarded ++ [TogglePause]).
    rewrite !run_app. simpl run at 2 4. simpl fst. simpl snd.
    fold paused. rewrite !run_deliveries_paused by done. simpl.
    unfold paused. by rewrite togglePause_twice. }
  assert (resumed = s) as Hres by (unfold resumed; by rewrite Hrun).
  split; [intros d; by apply onConnections_paused|].
  split; [done|]. unfold s'. rewrite Hres. split; [done|].
  split; [|split].
  - intros pre c post Hb Hpre.
    set (cache := fst (map_connections (TrafficCache s) pre)).
    assert (cache !! id c = TrafficCache s !! id c) as Hcache
      by (unfold cache; by rewrite map_connections_cache_other).
    exists (snd (map_step cache c)). split.
    { rewrite onConnections_dataSource, Hb by done. apply map_connections_lookup. }
    split; [done|]. split.
    + intros Hnone. rewrite <- Hcache in Hnone.
      unfold uploadSpeed, downSpeed.
      rewrite map_step_first_observation by done. simpl.
      split; [done|]. lia.
    + intros p Hsome. rewrite <- Hcache in Hsome.
      unfold uploadSpeed, downSpeed, map_step. simpl. rewrite Hsome. simpl.
      split; [done|]. split; [done|]. split.
      * intros Hne. by destruct (Z.eqb_spec (up p) 0).
      * intros Hne. by destruct (Z.eqb_spec (down p) 0).
  - intros c Hlast. rewrite onConnections_TrafficCache by done.
    by apply map_connections_cache_last.
  - intros i Hi. rewrite onConnections_TrafficCache by done.
    by apply map_connections_cache_other.
Qed.

Lemma C8_pause_discards_batches_witness :
  let paused := togglePause after_a_100 in
  let events := TogglePause :: map Deliver [batch [a_120]; batch [a_40; b_5]]
                  ++ [TogglePause] in
  let resumed := fst (run api_ok events after_a_100) in
  let s' := onConnections (batch [a_150; b_5]) resumed in
  (∀ d, onConnections d paused = paused) ∧
  run api_ok events after_a_100 = (after_a_100, []) ∧
  s' = onConnections (batch [a_150; b_5]) after_a_100 ∧
  (∃ r : Row,
     dataSource s' !! 1 = Some r ∧ conn r = b_5 ∧
     traffic r = counters b_5 ∧ uploadSpeed r = 0%Z ∧ downSpeed r = 0%Z) ∧
  (∃ r : Row,
     dataSource s' !! 0 = Some r ∧ conn r = a_150 ∧
     up r = 100%Z ∧ uploadSpeed r = 50%Z) ∧
  TrafficCache s' !! "a" = Some (counters a_150) ∧
  TrafficCache s' !! "zz" = TrafficCache after_a_100 !! "zz".
Proof.
  destruct (C8_pause_discards_batches api_ok after_a_100
              [batch [a_120]; batch [a_40; b_5]] (batch [a_150; b_5]) eq_refl)
    as (H1 & H2 & H3 & H4 & H5 & H6).
  cbv zeta. split; [exact H1|]. split; [exact H2|]. split; [exact H3|].
  split; [|split; [|split]].
  - destruct (H4 [a_150] b_5 []) as (r & Hr & Hc & Hnone & _).
    + reflexivity.
    + intros H. apply list_elem_of_singleton in H. discriminate.
    + exists r. split; [exact Hr|]. split; [exact Hc|].
      apply Hnone. vm_compute. reflexivity.
  - destruct (H4 [] a_150 [b_5]) as (r & Hr & Hc & _ & Hsome).
    + reflexivity.
    + intros H. inversion H.
    + exists r. split; [exact Hr|]. split; [exact Hc|].
      destruct (Hsome (mkTraffic 100 0)) as (Hu & _ & Hs & _).
      * vm_compute. reflexivity.
      * split; [exact Hu|]. apply Hs. discriminate.
  - apply (H5 a_150). vm_compute. reflexivity.
  - apply H6. intros H. vm_compute in H.
    repeat (apply elem_of_cons in H as [H | H]; [discriminate|]).
    inversion H.
Defined.

(** ** C9: the keyword filter *)

Lemma append_cons a (k post : string) : String a k +:+ post = String a (k +:+ post).
Proof. reflexivity. Qed.

Lemma prefix_spec (k s : string) :
  String.prefix k s = true ↔ ∃ post, s = k +:+ post.
Proof.
  revert s. induction k as [|a k IH]; intros s.
  - split; [intros _; by exists s | by destruct s].
  - destruct s as [|b s].
    + split; [done | intros [post H]; by rewrite append_cons in H].
    + change (String.prefix (String a k) (String b s))
        with (if Ascii.ascii_dec a b then String.prefix k s else false).
      destruct (Ascii.ascii_dec a b) as [->|Hne].
      * rewrite IH. split; intros [post H]; exists post.
        -- by rewrite append_cons, H.
        -- rewrite append_cons in H. congruence.
      * split; [done|]. intros [post H]. rewrite append_cons in H. congruence.
Qed.

(** [includes] is true exactly on the strings that contain the keyword as a
    contiguous run of the same characters. *)
Lemma includes_spec (s k : string) :
  includes s k = true ↔ ∃ pre post, s = pre +:+ (k +:+ post).
Proof.
  induction s as [|a s IH].
  - change (includes EmptyString k) with (String.prefix k EmptyString || false).
    rewrite orb_false_r, prefix_spec. split.
    + intros [post H]. by exists EmptyString, post.
    + intros ([|b pre] & post & H); [by exists post | done].
  - change (includes (String a s) k)
      with (String.prefix k (String a s) || includes s k).
    rewrite orb_true_iff, prefix_spec, IH. split.
    + intros [[post H] | (pre & post & H)].
      * by exists EmptyString, post.
      * exists (String a pre), post. by rewrite append_cons, H.
    + intros ([|b pre] & post & H).
      * left. by exists post.
      * right. exists pre, post. rewrite append_cons in H. congruence.
Qed.

Lemma includes_empty (s : string) : includes s EmptyString = true.
Proof. apply includes_spec. by exists EmptyString, s. Qed.

Lemma filter_all {A} (f : A → bool) (l : list A) :
  (∀ x, f x = true) → List.filter f l = l.
Proof.
  intros H. induction l as [|x l IH]; [done|].
  simpl. by rewrite H, IH.
Qed.

Lemma filter_sublist {A} (f : A → bool) (l : list A) :
  sublist (List.filter f l) l.
Proof.
  induction l as [|x l IH]; [constructor|].
  simpl. destruct (f x); by constructor.
Qed.

(** The examples of the specification, and one for the case of letters. *)
Example filter_exa :
  filteredConnections
    (viewing "exa" true [row_host "1" "example.com"; row_host "2" "test.com"] [])
  = [row_host "1" "example.com"] ∧
  filteredConnections
    (viewing EmptyString true [row_host "1" "example.com"; row_host "2" "test.com"] [])
  = [row_host "1" "example.com"; row_host "2" "test.com"] ∧
  filteredConnections
    (viewing "Exa" true [row_host "1" "example.com"; row_host "2" "test.com"] [])
  = [] ∧
  filteredConnections
    (viewing "te" false [row_host "1" "example.com"] [row_host "2" "test.com"])
  = [row_host "2" "test.com"].
Proof. repeat split. Qed.

(** C9: the view is the current selection (live rows on the active tab,
    closed rows otherwise) restricted, in order, to the rows whose host
    contains the keyword as a contiguous run of identical characters; no
    other field of a row is looked at, and the empty keyword keeps the whole
    selection. *)
Theorem C9_keyword_filter (s : State) :
  selection s = (if isActive s then dataSource s else disconnectedData s) ∧
  filteredConnections s
  = List.filter (λ r : Row, includes (host (metadata r)) (keywords s)) (selection s) ∧
  sublist (filteredConnections s) (selection s) ∧
  (∀ r : Row,
     r ∈ filteredConnections s
     ↔ r ∈ selection s ∧ ∃ pre post, host (metadata r) = pre +:+ (keywords s +:+ post)) ∧
  (∀ r1 r2 : Row,
     r1 ∈ selection s → r2 ∈ selection s →
     host (metadata r1) = host (metadata r2) →
     (r1 ∈ filteredConnections s ↔ r2 ∈ filteredConnections s)) ∧
  (keywords s = EmptyString → filteredConnections s = selection s).
Proof.
  assert (filteredConnections s
          = List.filter (λ r : Row, includes (host (metadata r)) (keywords s))
              (selection s)) as Hf.
  { unfold filteredConnections. destruct (keywords s) as [|a k] eqn:Ek; [|done].
    simpl. rewrite filter_all; [done|]. intros r. apply includes_empty. }
  assert (∀ r : Row,
            r ∈ filteredConnections s
            ↔ r ∈ selection s
              ∧ ∃ pre post, host (metadata r) = pre +:+ (keywords s +:+ post)) as Hmem.
  { intros r. rewrite Hf, !list_elem_of_In, filter_In, includes_spec. done. }
  split; [done|]. split; [done|]. split.
  { rewrite Hf. apply filter_sublist. }
  split; [done|]. split.
  - intros r1 r2 H1 H2 Hh. rewrite !Hmem, Hh. tauto.
  - intros Hk. unfold filteredConnections. by rewrite Hk.
Qed.

Lemma C9_keyword_filter_witness :
  let s := viewing EmptyString false [row_host "1" "example.com"]
             [row_host "2" "test.com"; row_host "3" "example.com"] in
  filteredConnections s = selection s ∧
  (row_host "2" "test.com" ∈ filteredConnections s
   ↔ row_host "2" "test.com" ∈ filteredConnections s).
Proof.
  cbv zeta. split.
  - apply (C9_keyword_filter
             (viewing EmptyString false [row_host "1" "example.com"]
                [row_host "2" "test.com"; row_host "3" "example.com"])).
    reflexivity.
  - apply (C9_keyword_filter
             (viewing EmptyString false [row_host "1" "example.com"]
                [row_host "2" "test.com"; row_host "3" "example.com"]));
      [by left | by left | reflexivity].
Defined.

(** ** C10: a delivery without a [connections] field *)

(** C10: when the [connections] field is missing or [null], a processed
    delivery behaves as the empty batch: every live row is appended to the
    closed set, in order, the live set becomes empty and the cache is left
    as it is.  The callback is a total function of the state and the
    delivered object. *)
Theorem C10_missing_connections (s : State) (data : KernelConnectionsWS) :
  isPause s = false →
  connections data = FieldUndefined ∨ connections data = FieldNull →
  onConnections data s = onConnections (batch []) s ∧
  dataSource (onConnections data s) = [] ∧
  disconnectedData (onConnections data s) = disconnectedData s ++ dataSource s ∧
  TrafficCache (onConnections data s) = TrafficCache s.
Proof.
  intros Hp Hmissing.
  assert (or_empty (connections data) = []) as Hb
    by (destruct Hmissing as [-> | ->]; reflexivity).
  split.
  { unfold onConnections. rewrite Hp, Hb. reflexivity. }
  rewrite onConnections_dataSource, onConnections_disconnectedData,
    onConnections_TrafficCache, Hb by done.
  split; [done|]. split; [|done].
  f_equal. induction (dataSource s) as [|r l IH]; [done|].
  rewrite filter_cons_True; [by rewrite IH|]. intros H. inversion H.
Qed.

Lemma C10_missing_connections_witness :
  onConnections (mkData FieldNull) after_a_100
  = onConnections (batch []) after_a_100 ∧
  dataSource (onConnections (mkData FieldNull) after_a_100) = [] ∧
  disconnectedData (onConnections (mkData FieldNull) after_a_100)
  = disconnectedData after_a_100 ++ dataSource after_a_100 ∧
  TrafficCache (onConnections (mkData FieldNull) after_a_100)
  = TrafficCache after_a_100.
Proof.
  apply (C10_missing_connections after_a_100 (mkData FieldNull)).
  - reflexivity.
  - right. reflexivity.
Defined.

(** * Further properties of the ledger *)

(** ** The cache only grows *)

Lemma map_connections_cache_mono cache l i :
  is_Some (cache !! i) → is_Some (fst (map_connections cache l) !! i).
Proof.
  revert cache. induction l as [|c l IH]; intros cache Hi; [done|].
  rewrite map_connections_cons. simpl fst. apply IH.
  apply lookup_insert_is_Some'. by right.
Qed.

Lemma step_cache_mono api e s i :
  is_Some (TrafficCache s !! i) →
  is_Some (TrafficCache (fst (step api e s)) !! i).
Proof.
  intros Hi. pose proof (step_ledger api e s) as Hl.
  destruct e;
    try (apply ledger_eq in Hl as (-> & _ & _); exact Hi).
  - simpl. destruct (isPause s) eqn:Hp.
    + by rewrite onConnections_paused.
    + rewrite onConnections_TrafficCache by done.
      by apply map_connections_cache_mono.
  - destruct (isActive s).
    + apply ledger_eq in Hl as (-> & _ & _). exact Hi.
    + rewrite (f_equal (λ x, fst (fst x)) Hl : TrafficCache _ = TrafficCache s).
      exact Hi.
Qed.

(** Whatever happens, an identity that has a cache entry keeps one: no
    event deletes from [TrafficCache], not even the clear button or the
    closing of the connection. *)
Theorem traffic_cache_never_evicts
    (api : Api) (events : list Event) (s : State) (i : string) :
  is_Some (TrafficCache s !! i) →
  is_Some (TrafficCache (fst (run api events s)) !! i).
Proof.
  revert s. induction events as [|e rest IH]; intros s Hi; [done|].
  simpl. destruct (step api e s) as [s1 out1] eqn:E1.
  destruct (run api rest s1) as [s2 out2] eqn:E2. simpl.
  change s2 with (fst (s2, out2)). rewrite <- E2. apply IH.
  change s1 with (fst (s1, out1)). rewrite <- E1. by apply step_cache_mono.
Qed.

Lemma traffic_cache_never_evicts_witness :
  is_Some
    (TrafficCache
       (fst (run api_ok [Deliver (batch []); SetActive false; ClearClosed;
                         Deliver (batch [b_5])] after_a_100)) !! "a").
Proof.
  apply (traffic_cache_never_evicts api_ok
           [Deliver (batch []); SetActive false; ClearClosed; Deliver (batch [b_5])]
           after_a_100 "a").
  vm_compute. by eexists.
Defined.

(** In every reachable state each identity that has a live row or a closed
    row has a cache entry. *)
Theorem shown_identities_are_cached (s : State) (i : string) :
  reachable s →
  i ∈ live_ids s ∨ i ∈ closed_ids s →
  is_Some (TrafficCache s !! i).
Proof.
  intros Hreach Hin.
  assert (∃ r : Row, r ∈ disconnectedData s ++ dataSource s ∧ id r = i)
    as (r & Hr & Hid).
  { destruct Hin as [Hin | Hin];
      apply list_elem_of_fmap in Hin as (r & -> & Hr);
      exists r; (split; [|done]); apply elem_of_app; [by right | by left]. }
  destruct (last (rows_of i s)) as [r'|] eqn:E.
  - rewrite (reachable_cache_tracks s Hreach i r' E). by eexists.
  - apply last_None in E.
    assert (r ∈ rows_of i s) as Hf by (by apply list_elem_of_filter).
    rewrite E in Hf. inversion Hf.
Qed.

Lemma shown_identities_are_cached_witness :
  is_Some (TrafficCache a_closed !! "a").
Proof.
  apply (shown_identities_are_cached a_closed "a").
  - apply reachable_run. constructor.
  - right. vm_compute. by left.
Defined.

(** ** Rates between two batches *)

Lemma rows_of_map_connections cache l (r : Row) :
  r ∈ snd (map_connections cache l) →
  ∃ pre c post,
    l = pre ++ c :: post ∧
    r = snd (map_step (fst (map_connections cache pre)) c).
Proof.
  revert cache. induction l as [|c l IH]; intros cache Hr.
  - inversion Hr.
  - rewrite map_connections_cons in Hr. simpl snd in Hr.
    apply elem_of_cons in Hr as [-> | Hr].
    + by exists [], c, l.
    + apply IH in Hr as (pre & c' & post & -> & ->).
      exists (c :: pre), c', post. split; [done|].
      by rewrite map_connections_cons.
Qed.

Lemma NoDup_filter_id (l : list Row) (r : Row) :
  NoDup (map (λ r : Row, id r) l) → r ∈ l →
  filter (λ r' : Row, id r' = id r) l = [r].
Proof.
  induction l as [|x l IH]; intros Hnd Hin; [inversion Hin|].
  simpl in Hnd. apply NoDup_cons in Hnd as [Hx Hnd].
  apply elem_of_cons in Hin as [-> | Hin].
  - rewrite filter_cons_True by done. f_equal.
    apply filter_none. intros y Hy Hid. apply Hx. rewrite <- Hid.
    apply (list_elem_of_fmap_2 (λ r : Row, id r)), Hy.
  - rewrite filter_cons_False; [by apply IH|].
    intros Hid. apply Hx. rewrite Hid.
    apply (list_elem_of_fmap_2 (λ r : Row, id r)), Hin.
Qed.

(** For an identity that is live, the rate shown after the next processed
    batch is the difference between the newly delivered counter and the
    counter shown so far, provided the latter is not zero; if it is zero the
    rate is zero. *)
Theorem next_rate_is_counter_difference
    (s : State) (data : KernelConnectionsWS) (r : Row)
    (pre : list Connection) (c : Connection) (post : list Connection) :
  reachable s →
  isPause s = false →
  NoDup (live_ids s) →
  r ∈ dataSource s →
  or_empty (connections data) = pre ++ c :: post →
  id c = id r →
  id c ∉ map id pre →
  ∃ r' : Row,
    dataSource (onConnections data s) !! length pre = Some r' ∧
    conn r' = c ∧
    (upload r ≠ 0%Z → uploadSpeed r' = (upload c - upload r)%Z) ∧
    (download r ≠ 0%Z → downSpeed r' = (download c - download r)%Z) ∧
    (upload r = 0%Z → uploadSpeed r' = 0%Z) ∧
    (download r = 0%Z → downSpeed r' = 0%Z).
Proof.
  intros Hreach Hp Hnd Hr Hb Hid Hpre.
  assert (TrafficCache s !! id c = Some (counters r)) as Hcache.
  { apply (reachable_cache_tracks s Hreach). unfold rows_of.
    rewrite filter_app, last_app, Hid, (NoDup_filter_id _ r) by done. done. }
  set (cache := fst (map_connections (TrafficCache s) pre)).
  assert (cache !! id c = Some (counters r)) as Hcache'
    by (unfold cache; by rewrite map_connections_cache_other).
  exists (snd (map_step cache c)). split.
  { rewrite onConnections_dataSource, Hb by done. apply map_connections_lookup. }
  split; [done|].
  unfold uploadSpeed, downSpeed, map_step. simpl. rewrite Hcache'. simpl.
  repeat split.
  - intros Hne. by destruct (Z.eqb_spec (upload r) 0).
  - intros Hne. by destruct (Z.eqb_spec (download r) 0).
  - intros ->. simpl. lia.
  - intros ->. simpl. lia.
Qed.

Lemma next_rate_is_counter_difference_witness :
  ∃ r' : Row,
    dataSource (onConnections (batch [b_5; a_150]) after_a_100) !! 1 = Some r' ∧
    conn r' = a_150 ∧
    uploadSpeed r' = 50%Z ∧
    downSpeed r' = 0%Z.
Proof.
  destruct (next_rate_is_counter_difference after_a_100 (batch [b_5; a_150])
              row_a_100 [b_5] a_150 [])
    as (r' & H1 & H2 & H3 & _ & _ & H6).
  - apply (reachable_step api_ok (Deliver (batch [a_100])) initial). constructor.
  - reflexivity.
  - vm_compute. apply NoDup_singleton.
  - vm_compute. by left.
  - reflexivity.
  - reflexivity.
  - intros H. apply list_elem_of_singleton in H. discriminate.
  - exists r'. repeat split; [exact H1 | exact H2 | | by apply H6].
    rewrite H3; [reflexivity | discriminate].
Defined.

(** When no identity is delivered twice in a batch and no delivered counter
    is below the cached one, every rate of the new live set is
    non-negative. *)
Theorem rates_nonnegative_when_counters_grow
    (s : State) (data : KernelConnectionsWS) :
  isPause s = false →
  NoDup (map id (or_empty (connections data))) →
  (∀ c p, c ∈ or_empty (connections data) →
          TrafficCache s !! id c = Some p →
          (up p ≤ upload c)%Z ∧ (down p ≤ download c)%Z) →
  ∀ r : Row, r ∈ dataSource (onConnections data s) →
             (0 ≤ uploadSpeed r)%Z ∧ (0 ≤ downSpeed r)%Z.
Proof.
  intros Hp Hnd Hgrow r Hr.
  rewrite onConnections_dataSource in Hr by done.
  apply rows_of_map_connections in Hr as (pre & c & post & Hb & ->).
  rewrite Hb in Hnd. rewrite map_app in Hnd. simpl in Hnd.
  apply NoDup_app in Hnd as (_ & Hdisj & _).
  assert (id c ∉ map id pre) as Hpre
    by (intros Hin; apply (Hdisj _ Hin); by left).
  assert (c ∈ or_empty (connections data)) as Hc
    by (rewrite Hb; apply elem_of_app; right; by left).
  set (cache := fst (map_connections (TrafficCache s) pre)).
  assert (cache !! id c = TrafficCache s !! id c) as Hcache
    by (unfold cache; by rewrite map_connections_cache_other).
  unfold uploadSpeed, downSpeed, map_step. simpl. fold cache. rewrite Hcache.
  destruct (TrafficCache s !! id c) as [p|] eqn:E; simpl; [|lia].
  destruct (Hgrow c p Hc E) as [Hu Hd].
  destruct (up p =? 0)%Z, (down p =? 0)%Z; lia.
Qed.

Lemma rates_nonnegative_when_counters_grow_witness :
  Forall (λ r : Row, (0 ≤ uploadSpeed r)%Z ∧ (0 ≤ downSpeed r)%Z)
         (dataSource (onConnections (batch [b_5; a_150]) after_a_100)).
Proof.
  apply Forall_forall.
  apply (rates_nonnegative_when_counters_grow after_a_100 (batch [b_5; a_150])).
  - reflexivity.
  - simpl. apply NoDup_cons. split; [|apply NoDup_singleton].
    intros H. apply list_elem_of_singleton in H. discriminate.
  - intros c p Hc Hcache. simpl in Hc.
    apply elem_of_cons in Hc as [-> | Hc].
    + vm_compute in Hcache. discriminate.
    + apply list_elem_of_singleton in Hc as ->.
      vm_compute in Hcache. injection Hcache as <-. simpl. lia.
Defined.

(** ** The baseline is zero only for a zero counter *)

Lemma or_number_eq_zero (x : option Z) (y : Z) :
  or_number x y = 0%Z → y = 0%Z.
Proof.
  destruct x as [v|]; simpl; [|done].
  destruct (Z.eqb_spec v 0); [done|]. intros ->. done.
Qed.

Lemma map_step_baseline cache c :
  (up (snd (map_step cache c)) = 0%Z → upload c = 0%Z) ∧
  (down (snd (map_step cache c)) = 0%Z → download c = 0%Z).
Proof. unfold map_step. simpl. split; apply or_number_eq_zero. Qed.

Lemma step_shown_rows api e s (r : Row) :
  r ∈ dataSource (fst (step api e s)) ∨ r ∈ disconnectedData (fst (step api e s)) →
  (r ∈ dataSource s ∨ r ∈ disconnectedData s) ∨
  ∃ cache c, r = snd (map_step cache c).
Proof.
  pose proof (step_ledger api e s) as Hl.
  destruct e;
    try (apply ledger_eq in Hl as (_ & -> & ->); by left).
  - simpl. destruct (isPause s) eqn:Hp.
    + rewrite onConnections_paused by done. by left.
    + rewrite onConnections_dataSource, onConnections_disconnectedData by done.
      intros [Hr | Hr].
      * right. apply rows_of_map_connections in Hr as (pre & c & post & _ & ->).
        by eexists _, _.
      * left. apply elem_of_app in Hr as [Hr | Hr]; [by right|].
        apply list_elem_of_filter in Hr as [_ Hr]. by left.
  - destruct (isActive s).
    + apply ledger_eq in Hl as (_ & -> & ->). by left.
    + rewrite (f_equal snd Hl : disconnectedData _ = []).
      rewrite (f_equal (λ x, snd (fst x)) Hl : dataSource _ = dataSource s).
      intros [Hr | Hr]; [left; by left | inversion Hr].
Qed.

(** In every reachable state, a row (live or closed) whose baseline is zero
    has a zero counter; so the rate of a row never equals its whole
    cumulative counter, unless that counter is zero. *)
Theorem baseline_zero_only_for_zero_counter (s : State) (r : Row) :
  reachable s →
  r ∈ dataSource s ∨ r ∈ disconnectedData s →
  (up r = 0%Z → upload r = 0%Z) ∧
  (down r = 0%Z → download r = 0%Z) ∧
  (upload r ≠ 0%Z → uploadSpeed r ≠ upload r) ∧
  (download r ≠ 0%Z → downSpeed r ≠ download r).
Proof.
  intros Hreach Hr.
  assert ((up r = 0%Z → upload r = 0%Z) ∧ (down r = 0%Z → download r = 0%Z))
    as [Hu Hd].
  { revert r Hr. induction Hreach as [|api e s _ IH]; intros r Hr.
    - destruct Hr as [Hr | Hr]; inversion Hr.
    - apply step_shown_rows in Hr as [Hr | (cache & c & ->)].
      + by apply IH.
      + apply map_step_baseline. }
  unfold uploadSpeed, downSpeed. repeat split; [done | done | |].
  - intros Hne Heq. apply Hne, Hu. lia.
  - intros Hne Heq. apply Hne, Hd. lia.
Qed.

Lemma baseline_zero_only_for_zero_counter_witness :
  (up row_a_100 = 0%Z → upload row_a_100 = 0%Z) ∧
  (down row_a_100 = 0%Z → download row_a_100 = 0%Z) ∧
  (upload row_a_100 ≠ 0%Z → uploadSpeed row_a_100 ≠ upload row_a_100) ∧
  (download row_a_100 ≠ 0%Z → downSpeed row_a_100 ≠ download row_a_100).
Proof.
  apply (baseline_zero_only_for_zero_counter a_closed row_a_100).
  - apply reachable_run. constructor.
  - right. vm_compute. by left.
Defined.

(** ** Events that do not touch the ledger *)

Lemma run_cons api e rest s :
  run api (e :: rest) s
  = (fst (run api rest (fst (step api e s))),
     snd (step api e s) ++ snd (run api rest (fst (step api e s)))).
Proof.
  change (run api (e :: rest) s)
    with (let '(s1, out1) := step api e s in
          let '(s2, out2) := run api rest s1 in (s2, out1 ++ out2)).
  destruct (step api e s) as [s1 out1].
  cbn [fst snd]. by destruct (run api rest s1).
Qed.

(** Pausing, the settings dialog, the tab, the keyword, close-all and every
    entry of the context menu leave the live set, the closed set and the
    cache as they are: only a delivery and the clear button write them. *)
Theorem view_events_keep_ledger (api : Api) (events : list Event) (s : State) :
  forallb is_view_event events = true →
  ledger (fst (run api events s)) = ledger s.
Proof.
  revert s. induction events as [|e rest IH]; intros s Hall; [done|].
  simpl in Hall. apply andb_true_iff in Hall as [He Hall].
  rewrite run_cons. simpl fst. rewrite IH by done.
  rewrite step_ledger. by destruct e.
Qed.

Lemma view_events_keep_ledger_witness :
  ledger
    (fst (run api_down
            [TogglePause; SetKeywords "exa"; CloseAll;
             Menu "home.connections.close" row_a_100;
             Menu "home.connections.addToProxy" row_a_100;
             Menu "common.details" row_a_100; SetActive false; ToggleSettings]
            after_a_100))
  = ledger after_a_100.
Proof.
  apply (view_events_keep_ledger api_down
           [TogglePause; SetKeywords "exa"; CloseAll;
            Menu "home.connections.close" row_a_100;
            Menu "home.connections.addToProxy" row_a_100;
            Menu "common.details" row_a_100; SetActive false; ToggleSettings]
           after_a_100).
  reflexivity.
Defined.

(** ** The closed set is append-only until it is cleared *)

Lemma step_closed_prefix api e s :
  is_ClearClosed e = false →
  ∃ more, disconnectedData (fst (step api e s)) = disconnectedData s ++ more.
Proof.
  intros He. pose proof (step_ledger api e s) as Hl.
  destruct e; try discriminate;
    try (apply ledger_eq in Hl as (_ & _ & ->); exists []; by rewrite app_nil_r).
  simpl. destruct (isPause s) eqn:Hp.
  - rewrite onConnections_paused by done. exists []. by rewrite app_nil_r.
  - rewrite onConnections_disconnectedData by done. by eexists.
Qed.

(** As long as the clear button is not used, the closed rows stay where they
    are and as they are: every event leaves the closed set as a prefix of
    the new closed set. *)
Theorem closed_rows_are_kept
    (api : Api) (events : list Event) (s : State) :
  forallb (λ e, negb (is_ClearClosed e)) events = true →
  ∃ more,
    disconnectedData (fst (run api events s)) = disconnectedData s ++ more.
Proof.
  revert s. induction events as [|e rest IH]; intros s Hall.
  - exists []. by rewrite app_nil_r.
  - simpl in Hall. apply andb_true_iff in Hall as [He Hall].
    apply negb_true_iff in He.
    rewrite run_cons. simpl fst.
    destruct (IH (fst (step api e s)) Hall) as [more2 ->].
    destruct (step_closed_prefix api e s He) as [more1 ->].
    exists (more1 ++ more2). by rewrite app_assoc.
Qed.

Lemma closed_rows_are_kept_witness :
  ∃ more,
    disconnectedData
      (fst (run api_ok [Deliver (batch [b_5]); Deliver (batch [a_150]);
                        Deliver (batch [])] a_closed))
    = disconnectedData a_closed ++ more.
Proof.
  apply (closed_rows_are_kept api_ok
           [Deliver (batch [b_5]); Deliver (batch [a_150]); Deliver (batch [])]
           a_closed).
  reflexivity.
Defined.

(** ** The live set is frozen while paused *)

Lemma menu_isPause api label h record s :
  find_handler label (menu api) = Some h →
  isPause (fst (h record s)) = isPause s.
Proof.
  apply (find_handler_Forall (λ h, isPause (fst (h record s)) = isPause s)).
  unfold menu. simpl.
  repeat (apply Forall_cons; split); simpl; try done;
    first [ by rewrite handler_close_state | by rewrite handler_addTo_state ].
Qed.

Lemma step_isPause api e s :
  is_TogglePause e = false →
  isPause (fst (step api e s)) = isPause s.
Proof.
  intros He. destruct e; try discriminate; unfold step; try done.
  - apply onConnections_isPause.
  - by destruct (isActive s).
  - by destruct (isActive s).
  - destruct (find_handler label (menu api)) as [h|] eqn:E; [|done].
    by eapply menu_isPause.
Qed.

(** While the component is paused and the pause button is not pressed, no
    sequence of deliveries and user actions changes the live set or the
    cache; the closed set is either as it was or has been emptied by the
    clear button. *)
Theorem live_set_frozen_while_paused
    (api : Api) (events : list Event) (s : State) :
  isPause s = true →
  forallb (λ e, negb (is_TogglePause e)) events = true →
  let s' := fst (run api events s) in
  isPause s' = true ∧
  dataSource s' = dataSource s ∧
  TrafficCache s' = TrafficCache s ∧
  (disconnectedData s' = disconnectedData s ∨ disconnectedData s' = []).
Proof.
  revert s. induction events as [|e rest IH]; intros s Hp Hall.
  - cbv zeta. simpl. split; [done|]. split; [done|]. split; [done|]. by left.
  - simpl in Hall. apply andb_true_iff in Hall as [He Hall].
    apply negb_true_iff in He. cbv zeta. rewrite run_cons. simpl fst.
    assert (isPause (fst (step api e s)) = true) as Hp1
      by (by rewrite step_isPause).
    destruct (IH (fst (step api e s)) Hp1 Hall) as (H1 & H2 & H3 & H4).
    cbv zeta in H1, H2, H3, H4. rewrite H2, H3.
    split; [done|].
    assert (TrafficCache (fst (step api e s)) = TrafficCache s ∧
            dataSource (fst (step api e s)) = dataSource s ∧
            (disconnectedData (fst (step api e s)) = disconnectedData s
             ∨ disconnectedData (fst (step api e s)) = [])) as (Hc & Hd & Hx).
    { pose proof (step_ledger api e s) as Hl.
      destruct e; try discriminate;
        try (apply ledger_eq in Hl as (Hc & Hd & Hx);
             split; [done|]; split; [done|]; by left).
      - simpl. rewrite onConnections_paused by done.
        split; [done|]. split; [done|]. by left.
      - destruct (isActive s).
        + apply ledger_eq in Hl as (Hc & Hd & Hx).
          split; [done|]. split; [done|]. by left.
        + split; [exact (f_equal (λ x, fst (fst x)) Hl)|].
          split; [exact (f_equal (λ x, snd (fst x)) Hl)|].
          right. exact (f_equal snd Hl). }
    split; [done|]. split; [done|].
    destruct H4 as [-> | ->]; [exact Hx | by right].
Qed.

Lemma live_set_frozen_while_paused_witness :
  let s' :=
    fst (run api_ok [Deliver (batch [a_150; b_5]); CloseAll; Deliver (batch []);
                     SetActive false; ClearClosed]
           (togglePause after_a_100)) in
  isPause s' = true ∧
  dataSource s' = dataSource (togglePause after_a_100) ∧
  TrafficCache s' = TrafficCache (togglePause after_a_100) ∧
  (disconnectedData s' = disconnectedData (togglePause after_a_100)
   ∨ disconnectedData s' = []).
Proof.
  apply (live_set_frozen_while_paused api_ok
           [Deliver (batch [a_150; b_5]); CloseAll; Deliver (batch []);
            SetActive false; ClearClosed]
           (togglePause after_a_100)); reflexivity.
Defined.

(** * Further properties of the view *)

(** ** Typing more of a keyword only narrows the view *)

Lemma append_assoc (a b c : string) : (a +:+ b) +:+ c = a +:+ (b +:+ c).
Proof.
  induction a as [|x a IH]; [done|].
  by rewrite !append_cons, IH.
Qed.

Lemma includes_trans (s k2 k1 : string) :
  includes s k2 = true → includes k2 k1 = true → includes s k1 = true.
Proof.
  rewrite !includes_spec.
  intros (p & q & ->) (p' & q' & ->).
  exists (p +:+ p'), (q' +:+ q). by rewrite !append_assoc.
Qed.

Lemma filteredConnections_filter (s : State) :
  filteredConnections s
  = List.filter (λ r : Row, includes (host (metadata r)) (keywords s)) (selection s).
Proof.
  unfold filteredConnections. destruct (keywords s) as [|a k] eqn:Ek; [|done].
  simpl. rewrite filter_all; [done|]. intros r. apply includes_empty.
Qed.

Lemma filter_sublist_impl {A} (f g : A → bool) (l : list A) :
  (∀ x, f x = true → g x = true) →
  sublist (List.filter f l) (List.filter g l).
Proof.
  intros Himpl. induction l as [|x l IH]; [constructor|].
  simpl. destruct (f x) eqn:Ef.
  - rewrite (Himpl x Ef). by constructor.
  - destruct (g x); [by constructor | done].
Qed.

(** If the new keyword contains the old one, the rows shown for the new
    keyword are among the rows shown for the old one, in the same order. *)
Theorem longer_keyword_narrows_view (s : State) (k1 k2 : string) :
  includes k2 k1 = true →
  sublist (filteredConnections (setKeywords k2 s))
          (filteredConnections (setKeywords k1 s)).
Proof.
  intros Hk. rewrite !filteredConnections_filter.
  change (selection (setKeywords k2 s)) with (selection s).
  change (selection (setKeywords k1 s)) with (selection s).
  apply filter_sublist_impl. intros r Hr. simpl in *.
  by apply (includes_trans _ k2).
Qed.

Lemma longer_keyword_narrows_view_witness :
  let s := viewing EmptyString true
             [row_host "1" "example.com"; row_host "2" "test.com";
              row_host "3" "exam.org"] [] in
  sublist (filteredConnections (setKeywords "example" s))
          (filteredConnections (setKeywords "exa" s)).
Proof.
  apply (longer_keyword_narrows_view
           (viewing EmptyString true
              [row_host "1" "example.com"; row_host "2" "test.com";
               row_host "3" "exam.org"] [])
           "exa" "example").
  reflexivity.
Defined.

(** ** The inbound label *)

Lemma replace_eq (s pat rep : string) :
  replace s pat rep
  = if String.prefix pat s then rep +:+ skip (String.length pat) s
    else match s with
         | EmptyString => EmptyString
         | String a s' => String a (replace s' pat rep)
         end.
Proof. by destruct s. Qed.

Lemma includes_eq (s k : string) :
  includes s k
  = String.prefix k s
    || match s with
       | EmptyString => false
       | String _ s' => includes s' k
       end.
Proof. by destruct s. Qed.

Lemma skip_append (p q : string) : skip (String.length p) (p +:+ q) = q.
Proof. induction p as [|a p IH]; [done|]. exact IH. Qed.

(** [replace] rewrites the leftmost occurrence of the pattern and nothing
    else; without an occurrence it returns its argument. *)
Lemma replace_leftmost (s pat rep : string) :
  (includes s pat = false → replace s pat rep = s) ∧
  (includes s pat = true →
   ∃ pre post,
     s = pre +:+ (pat +:+ post) ∧
     replace s pat rep = pre +:+ (rep +:+ post) ∧
     ∀ pre' post', s = pre' +:+ (pat +:+ post') →
                   String.length pre ≤ String.length pre').
Proof.
  induction s as [|a s [IHn IHy]]; rewrite includes_eq, replace_eq.
  - destruct (String.prefix pat EmptyString) eqn:E; simpl.
    + split; [done|]. intros _.
      apply prefix_spec in E as [post E].
      exists EmptyString, post. split; [done|].
      split; [|intros; simpl; lia].
      assert (skip (String.length pat) EmptyString = post) as ->; [|done].
      rewrite E. apply skip_append.
    + split; [done | discriminate].
  - destruct (String.prefix pat (String a s)) eqn:E; simpl.
    + split; [done|]. intros _.
      apply prefix_spec in E as [post E].
      exists EmptyString, post. split; [done|].
      split; [|intros; simpl; lia].
      assert (skip (String.length pat) (String a s) = post) as ->; [|done].
      rewrite E. apply skip_append.
    + split.
      * intros Hn. by rewrite IHn.
      * intros Hy. destruct (IHy Hy) as (pre & post & Hs & Hr & Hmin).
        exists (String a pre), post. rewrite !append_cons.
        split; [by rewrite Hs at 1|]. split; [by rewrite Hr|].
        intros [|b pre'] post' Hs'.
        -- assert (String.prefix pat (String a s) = true) as Hpre
             by (apply prefix_spec; by exists post').
           congruence.
        -- rewrite append_cons in Hs'. injection Hs' as _ Hs'.
           simpl. apply le_n_S. by apply (Hmin pre' post').
Qed.

(** The inbound column shows the inbound name with its leftmost
    ["DEFAULT-"] removed: a name of the form ["DEFAULT-x"] is shown as
    ["x"], a name without the marker is shown as it is, and later
    occurrences of the marker are kept. *)
Theorem inbound_label_drops_leftmost_marker (record : Row) :
  let value := inboundName (metadata record) in
  (∀ x, value = "DEFAULT-" +:+ x → customRender_inbound record = x) ∧
  (includes value "DEFAULT-" = false → customRender_inbound record = value) ∧
  (includes value "DEFAULT-" = true →
   ∃ pre post,
     value = pre +:+ ("DEFAULT-" +:+ post) ∧
     customRender_inbound record = pre +:+ post ∧
     ∀ pre' post', value = pre' +:+ ("DEFAULT-" +:+ post') →
                   String.length pre ≤ String.length pre').
Proof.
  cbv zeta. unfold customRender_inbound.
  destruct (replace_leftmost (inboundName (metadata record)) "DEFAULT-" EmptyString)
    as [Hn Hy].
  split; [|split; [exact Hn | exact Hy]].
  intros x Hx. rewrite Hx, replace_eq.
  assert (String.prefix "DEFAULT-" ("DEFAULT-" +:+ x) = true) as ->
    by (apply prefix_spec; by exists x).
  apply (skip_append "DEFAULT-" x).
Qed.

Lemma inbound_label_drops_leftmost_marker_witness :
  customRender_inbound row_a_100 = "mixed" ∧
  customRender_inbound
    (mkRow (mkConnection "d"
              (mkMetadata "DEFAULT-DEFAULT-tun" "Tun" "udp" "dig" "/usr/bin/dig"
                 "example.org" EmptyString "10.0.0.1" "53" "9.9.9.9" "53" "9.9.9.9")
              0 0 "2024-01-01T00:00:00Z" ["DIRECT"] "Match" EmptyString)
       (mkTraffic 0 0))
  = "DEFAULT-tun".
Proof.
  split.
  - apply (inbound_label_drops_leftmost_marker row_a_100). reflexivity.
  - apply (inbound_label_drops_leftmost_marker
             (mkRow (mkConnection "d"
                       (mkMetadata "DEFAULT-DEFAULT-tun" "Tun" "udp" "dig" "/usr/bin/dig"
                          "example.org" EmptyString "10.0.0.1" "53" "9.9.9.9" "53"
                          "9.9.9.9")
                       0 0 "2024-01-01T00:00:00Z" ["DIRECT"] "Match" EmptyString)
                (mkTraffic 0 0))).
    reflexivity.
Defined.

(** ** The order of the columns *)

Lemma insert_sorted_Permutation {A} (cmp : A → A → Z) (x : A) (l : list A) :
  insert_sorted cmp x l ≡ₚ x :: l.
Proof.
  induction l as [|y l IH]; [done|]. simpl.
  destruct (0 <? cmp x y)%Z; [|done].
  rewrite IH. apply Permutation_swap.
Qed.

Lemma array_sort_Permutation {A} (cmp : A → A → Z) (l : list A) :
  array_sort cmp l ≡ₚ l.
Proof.
  induction l as [|x l IH]; [done|]. simpl.
  by rewrite insert_sorted_Permutation, IH.
Qed.

Lemma insert_sorted_Sorted {A} (f : A → Z) (x : A) (l : list A) :
  Sorted (λ a b, (f a ≤ f b)%Z) l →
  Sorted (λ a b, (f a ≤ f b)%Z) (insert_sorted (λ a b, (f a - f b)%Z) x l).
Proof.
  induction l as [|y l IH]; intros Hs; simpl.
  - by repeat constructor.
  - destruct (Z.ltb_spec 0 (f x - f y)) as [Hlt | Hge].
    + apply Sorted_inv in Hs as [Hs Hhd]. constructor; [by apply IH|].
      destruct l as [|z l]; simpl.
      * constructor. lia.
      * destruct (0 <? f x - f z)%Z; constructor; [|lia].
        by apply HdRel_inv in Hhd.
    + constructor; [done|]. constructor. lia.
Qed.

Lemma array_sort_Sorted {A} (f : A → Z) (l : list A) :
  Sorted (λ a b, (f a ≤ f b)%Z) (array_sort (λ a b, (f a - f b)%Z) l).
Proof.
  induction l as [|x l IH]; [constructor|].
  simpl. by apply insert_sorted_Sorted.
Qed.

Lemma indexOf_from_app i pre x rest :
  x ∉ pre → indexOf_from i (pre ++ x :: rest) x = (i + Z.of_nat (length pre))%Z.
Proof.
  revert i. induction pre as [|y pre IH]; intros i Hx; simpl.
  - rewrite String.eqb_refl. lia.
  - apply not_elem_of_cons in Hx as [Hne Hx].
    destruct (String.eqb_spec y x); [congruence|].
    rewrite IH by done. lia.
Qed.

Lemma indexOf_elem (l : list string) (x : string) :
  x ∈ l → ∃ pre rest, l = pre ++ x :: rest ∧ indexOf l x = Z.of_nat (length pre).
Proof.
  intros Hx. apply list_elem_of_split_l in Hx as (pre & rest & -> & Hpre).
  exists pre, rest. split; [done|].
  unfold indexOf. rewrite indexOf_from_app by done. lia.
Qed.

Lemma indexOf_from_absent i (l : list string) (x : string) :
  x ∉ l → indexOf_from i l x = (-1)%Z.
Proof.
  revert i. induction l as [|y l IH]; intros i Hx; [done|]. simpl.
  apply not_elem_of_cons in Hx as [Hne Hx].
  destruct (String.eqb_spec y x); [congruence|]. by apply IH.
Qed.

(** Two listed fields with the same index are the same field. *)
Lemma indexOf_inj (l : list string) (x y : string) :
  x ∈ l → y ∈ l → indexOf l x = indexOf l y → x = y.
Proof.
  intros Hx Hy Heq.
  apply indexOf_elem in Hx as (p1 & r1 & E1 & H1).
  apply indexOf_elem in Hy as (p2 & r2 & E2 & H2).
  assert (length p1 = length p2) as Hlen by lia.
  assert (l !! length p1 = Some x) as L1
    by (rewrite E1; apply list_lookup_middle; done).
  assert (l !! length p1 = Some y) as L2
    by (rewrite E2; apply list_lookup_middle; done).
  congruence.
Qed.

Lemma indexOf_Sorted_suffix (pre suf : list string) :
  NoDup (pre ++ suf) →
  Sorted (λ a b, (indexOf (pre ++ suf) a ≤ indexOf (pre ++ suf) b)%Z) suf.
Proof.
  revert pre. induction suf as [|x suf IH]; intros pre Hnd; [constructor|].
  constructor.
  - specialize (IH (pre ++ [x])). rewrite <- app_assoc in IH. by apply IH.
  - destruct suf as [|y suf]; constructor.
    assert (x ∉ pre) as Hx.
    { apply NoDup_app in Hnd as (_ & Hd & _). intros Hin.
      apply (Hd _ Hin). by left. }
    assert (y ∉ pre ++ [x]) as Hy.
    { replace (pre ++ x :: y :: suf) with ((pre ++ [x]) ++ y :: suf) in Hnd
        by (by rewrite <- app_assoc).
      apply NoDup_app in Hnd as (_ & Hd & _). intros Hin.
      apply (Hd _ Hin). by left. }
    unfold indexOf. rewrite indexOf_from_app by done.
    replace (pre ++ x :: y :: suf) with ((pre ++ [x]) ++ y :: suf)
      by (by rewrite <- app_assoc).
    rewrite indexOf_from_app by done. rewrite length_app. simpl. lia.
Qed.

Lemma column_keys_NoDup : NoDup column_keys.
Proof. apply (bool_decide_unpack (NoDup column_keys)). vm_compute. exact I. Qed.

Lemma column_literal_keys visibility :
  map key (column_literal visibility) = column_keys.
Proof. reflexivity. Qed.

(** Whatever the configuration, [columns] holds each column of the literal
    once and is ordered by the position of the keys in [order], keys that
    [order] lacks coming first; a column is hidden unless its key is mapped
    to [true] in [visibility]; and when [order] lists every key once, the
    columns come in exactly the order of [order]. *)
Theorem columns_follow_configured_order
    (visibility : gmap string bool) (order : list string) :
  columns visibility order ≡ₚ column_literal visibility ∧
  Sorted (λ a b, (indexOf order (key a) ≤ indexOf order (key b))%Z)
         (columns visibility order) ∧
  (∀ c, c ∈ columns visibility order → key c ∉ order →
        indexOf order (key c) = (-1)%Z) ∧
  (∀ c, c ∈ columns visibility order →
        hidden c = negb (default false (visibility !! key c))) ∧
  (order ≡ₚ column_keys → map key (columns visibility order) = order).
Proof.
  assert (columns visibility order ≡ₚ column_literal visibility) as Hperm
    by apply array_sort_Permutation.
  assert (Sorted (λ a b, (indexOf order (key a) ≤ indexOf order (key b))%Z)
            (columns visibility order)) as Hsorted
    by apply (array_sort_Sorted (λ c, indexOf order (key c))).
  split; [done|]. split; [done|]. split.
  { intros c _ Hc. by apply indexOf_from_absent. }
  split.
  { intros c Hc. rewrite Hperm in Hc. unfold column_literal in Hc.
    apply list_elem_of_fmap in Hc as ([t k] & -> & _). done. }
  intros Horder.
  assert (map key (columns visibility order) ≡ₚ order) as Hkeys.
  { etransitivity; [apply Permutation_map, Hperm|].
    rewrite column_literal_keys. by symmetry. }
  assert (NoDup order) as Hnd.
  { rewrite Horder. apply column_keys_NoDup. }
  assert (Transitive (λ a b : string, (indexOf order a ≤ indexOf order b)%Z))
    as Htrans by (intros a b c Hab Hbc; simpl in *; lia).
  apply (@Sorted_unique_strong _
           (λ a b, (indexOf order a ≤ indexOf order b)%Z) Htrans).
  - intros a b Ha Hb Hab Hba. apply (indexOf_inj order); [| done | lia].
    by rewrite <- Hkeys.
  - clear -Hsorted. induction Hsorted as [|c l Hs IH Hhd]; [constructor|].
    simpl. constructor; [done|].
    destruct Hhd; simpl; by constructor.
  - apply (indexOf_Sorted_suffix [] order Hnd).
  - done.
Qed.

Lemma columns_follow_configured_order_witness :
  map key (columns ∅ (rev column_keys)) = rev column_keys.
Proof.
  apply (columns_follow_configured_order ∅ (rev column_keys)).
  symmetry. apply Permutation_rev.
Defined.

Lemma array_sort_ties {A} (cmp : A → A → Z) (l : list A) :
  (∀ a b, a ∈ l → b ∈ l → (cmp a b ≤ 0)%Z) → array_sort cmp l = l.
Proof.
  induction l as [|x l IH]; intros Hall; [done|]. simpl.
  rewrite IH by (intros a b Ha Hb; apply Hall; by right).
  destruct l as [|y l]; [done|]. simpl.
  destruct (Z.ltb_spec 0 (cmp x y)) as [Hlt|]; [|done].
  assert (cmp x y ≤ 0)%Z by (apply Hall; [by left | right; by left]). lia.
Qed.

(** When [order] names none of the columns (it is empty, say), the columns
    come in the order of the source literal: the sort is stable and all
    comparisons are ties. *)
Theorem columns_without_order_keep_source_order
    (visibility : gmap string bool) (order : list string) :
  (∀ k, k ∈ column_keys → k ∉ order) →
  columns visibility order = column_literal visibility.
Proof.
  intros Hnone. apply array_sort_ties. intros a b Ha Hb.
  assert (∀ c, c ∈ column_literal visibility → indexOf order (key c) = (-1)%Z)
    as Hidx.
  { intros c Hc. apply indexOf_from_absent, Hnone.
    rewrite <- (column_literal_keys visibility).
    by apply (list_elem_of_fmap_2 key). }
  rewrite (Hidx a Ha), (Hidx b Hb). lia.
Qed.

Lemma columns_without_order_keep_source_order_witness :
  columns ∅ ["custom"] = column_literal ∅.
Proof.
  apply (columns_without_order_keep_source_order ∅ ["custom"]).
  intros k Hk Hin. apply list_elem_of_singleton in Hin as ->.
  vm_compute in Hk.
  repeat (apply elem_of_cons in Hk as [Hk | Hk]; [discriminate|]).
  inversion Hk.
Defined.

(** ** The labels of the settings dialog *)

Lemma fold_insert_lookup {V} (g : string → V) (l : list string)
    (m : gmap string V) (x : string) :
  fold_left (λ (m : gmap string V) f, <[f := g f]> m) l m !! x
  = if decide (x ∈ l) then Some (g x) else m !! x.
Proof.
  revert m. induction l as [|f l IH]; intros m.
  - destruct (decide (x ∈ [])) as [H|]; [inversion H | done].
  - change (fold_left (λ (m : gmap string V) f, <[f := g f]> m) (f :: l) m)
      with (fold_left (λ (m : gmap string V) f, <[f := g f]> m) l (<[f := g f]> m)).
    rewrite IH.
    destruct (decide (x ∈ l)) as [Hin | Hout];
      destruct (decide (x ∈ f :: l)) as [Hin' | Hout']; try done.
    + exfalso. apply Hout'. by right.
    + apply elem_of_cons in Hin' as [-> | Hin']; [|done].
      by rewrite lookup_insert_eq.
    + rewrite lookup_insert_ne; [done|].
      intros ->. apply Hout'. by left.
Qed.

Lemma find_some_iff (l : list Column) (f : string) (c : Column) :
  NoDup (map key l) →
  List.find (λ column, String.eqb (key column) f) l = Some c
  ↔ c ∈ l ∧ key c = f.
Proof.
  induction l as [|x l IH]; intros Hnd; simpl.
  - split; [discriminate | intros [H _]; inversion H].
  - simpl in Hnd. apply NoDup_cons in Hnd as [Hx Hnd].
    destruct (String.eqb_spec (key x) f) as [Hk | Hk].
    + split.
      * intros [= <-]. split; [by left | done].
      * intros [Hin Hkc]. apply elem_of_cons in Hin as [-> | Hin]; [done|].
        exfalso. apply Hx. rewrite Hk, <- Hkc.
        by apply (list_elem_of_fmap_2 key).
    + rewrite IH by done. split.
      * intros [Hin Hkc]. split; [by right | done].
      * intros [Hin Hkc]. apply elem_of_cons in Hin as [-> | Hin]; [congruence|].
        done.
Qed.

Lemma find_Permutation (l1 l2 : list Column) (f : string) :
  NoDup (map key l1) → l1 ≡ₚ l2 →
  List.find (λ column, String.eqb (key column) f) l1
  = List.find (λ column, String.eqb (key column) f) l2.
Proof.
  intros Hnd Hperm.
  assert (NoDup (map key l2)) as Hnd2.
  { assert (map key l1 ≡ₚ map key l2) as Hk by (by apply Permutation_map).
    by rewrite <- Hk. }
  destruct (List.find _ l1) as [c1|] eqn:E1.
  - symmetry. apply find_some_iff; [done|].
    apply find_some_iff in E1 as [Hin Hk]; [|done].
    split; [by rewrite <- Hperm | done].
  - destruct (List.find _ l2) as [c2|] eqn:E2; [|done].
    apply find_some_iff in E2 as [Hin Hk]; [|done].
    assert (List.find (λ column, String.eqb (key column) f) l1 = Some c2) as E
      by (apply find_some_iff; [done|]; split; [by rewrite Hperm | done]).
    congruence.
Qed.

Lemma find_column_literal visibility (f : string) :
  title <$> List.find (λ column, String.eqb (key column) f)
              (column_literal visibility)
  = fst <$> List.find (λ item, String.eqb (snd item) f) column_table.
Proof.
  unfold column_literal.
  induction column_table as [|[t k] l IH]; [done|]. simpl.
  by destruct (String.eqb k f).
Qed.

Lemma column_titles_truthy :
  Forall (λ item, truthy (fst item) = true) column_table.
Proof. repeat constructor. Qed.

(** Each card of the settings dialog, one per field of [order], is labelled
    with the title of the column that has the field as key, whatever the
    order and the visibility are; a field that is the key of no column is
    labelled with itself. *)
Theorem card_labels_are_column_titles
    (visibility : gmap string bool) (order : list string) (field : string) :
  field ∈ order →
  card_label (columnTitleMap visibility order) field
  = match List.find (λ item, String.eqb (snd item) field) column_table with
    | Some (t, _) => t
    | None => field
    end.
Proof.
  intros Hin. unfold card_label, columnTitleMap.
  rewrite (fold_insert_lookup
             (λ f, title <$> List.find (λ column, String.eqb (key column) f)
                               (columns visibility order))).
  rewrite decide_True by done.
  rewrite (find_Permutation (columns visibility order) (column_literal visibility)).
  - rewrite find_column_literal.
    destruct (List.find _ column_table) as [[t k]|] eqn:E; simpl; [|done].
    apply find_some in E as [Hitem _].
    pose proof column_titles_truthy as Hall.
    rewrite Forall_forall in Hall.
    specialize (Hall (t, k) (proj2 (list_elem_of_In _ _) Hitem)). simpl in Hall.
    by destruct t.
  - assert (map key (columns visibility order) ≡ₚ column_keys) as Hk
      by (rewrite <- (column_literal_keys visibility);
          apply Permutation_map, array_sort_Permutation).
    rewrite Hk. apply column_keys_NoDup.
  - apply array_sort_Permutation.
Qed.

Lemma card_labels_are_column_titles_witness :
  card_label (columnTitleMap ∅ ["start"; "up"; "custom"]) "up"
  = "home.connections.uploadSpeed" ∧
  card_label (columnTitleMap ∅ ["start"; "up"; "custom"]) "custom" = "custom".
Proof.
  split.
  - rewrite (card_labels_are_column_titles ∅ ["start"; "up"; "custom"] "up");
      [reflexivity|]. right. by left.
  - rewrite (card_labels_are_column_titles ∅ ["start"; "up"; "custom"] "custom");
      [reflexivity|]. right. right. by left.
Defined.

(** * Properties of the proxy-group editor *)

Section ProxyGroupFacts.

Import ProxyGroups.

Lemma forallb_negb {A} (f : A → bool) (l : list A) :
  forallb (λ x, negb (f x)) l = negb (existsb f l).
Proof.
  induction l as [|x l IH]; [done|]. simpl.
  rewrite IH. by destruct (f x), (existsb f l).
Qed.

Lemma existsb_map {A B} (f : A → B) (p : B → bool) (l : list A) :
  existsb (λ x, p (f x)) l = existsb p (map f l).
Proof. induction l as [|x l IH]; [done|]. simpl. by rewrite IH. Qed.

(** The tests made against [groups] look at the ids of the groups only. *)
Lemma some_group_ids (groups groups' : list Group.t) (i : string) :
  map Group.id groups' = map Group.id groups →
  some_group groups' i = some_group groups i.
Proof.
  intros Hids. unfold some_group.
  rewrite (existsb_map Group.id (λ x, String.eqb x i) groups').
  rewrite (existsb_map Group.id (λ x, String.eqb x i) groups).
  by rewrite Hids.
Qed.

Lemma lost_spec store groups (p : Proxy.t) :
  lost store groups p
  = if String.eqb (Proxy.type p) "Built-In" then
      negb (is_builtin (Proxy.id p)) && negb (some_group groups (Proxy.id p))
    else
      match getSubscribeById store (Proxy.type p) with
      | None => true
      | Some sub => negb (some_proxy (Subscribe.proxies sub) (Proxy.id p))
      end.
Proof.
  unfold lost, some_group, some_proxy.
  destruct (String.eqb (Proxy.type p) "Built-In").
  - rewrite forallb_negb. by destruct (is_builtin (Proxy.id p)).
  - destruct (getSubscribeById store (Proxy.type p)); [|done].
    by rewrite forallb_negb.
Qed.

Lemma lost_ids store groups groups' p :
  map Group.id groups' = map Group.id groups →
  lost store groups' p = lost store groups p.
Proof.
  intros Hids. rewrite !lost_spec. by rewrite (some_group_ids groups groups').
Qed.

Lemma kept_ids store groups groups' p :
  map Group.id groups' = map Group.id groups →
  kept store groups' p = kept store groups p.
Proof.
  intros Hids. unfold kept. by rewrite (some_group_ids groups groups').
Qed.

Lemma use_lost_spec store v : use_lost store v = negb (some_subscribe store v).
Proof. unfold use_lost, some_subscribe. apply forallb_negb. Qed.

(** An entry survives the clearing and is still reported lost only in one
    case: it was picked from the Built-In section, its name is [DIRECT] or
    [REJECT], and its id is neither of these nor the id of a group. *)
Lemma kept_and_lost store groups p :
  kept store groups p = true ∧ lost store groups p = true
  ↔ Proxy.type p = "Built-In" ∧
    is_builtin (Proxy.name p) = true ∧
    is_builtin (Proxy.id p) = false ∧
    some_group groups (Proxy.id p) = false.
Proof.
  rewrite lost_spec. unfold kept.
  destruct (String.eqb_spec (Proxy.type p) "Built-In") as [Ht | Ht].
  - destruct (is_builtin (Proxy.name p)), (is_builtin (Proxy.id p)),
      (some_group groups (Proxy.id p)); simpl;
      (split; [ intros [H1 H2]; try discriminate; by repeat split
              | intros (_ & H1 & H2 & H3); try discriminate; by split ]).
  - split; [|intros [H _]; contradiction].
    intros [Hk Hl].
    destruct (getSubscribeById store (Proxy.type p)) as [sub|]; [|discriminate].
    destruct (some_proxy (Subscribe.proxies sub) (Proxy.id p)); discriminate.
Qed.

Lemma existsb_filter {A} (f g : A → bool) (l : list A) :
  existsb g (List.filter f l) = true ↔ ∃ x, x ∈ l ∧ f x = true ∧ g x = true.
Proof.
  rewrite existsb_exists. split.
  - intros (x & Hx & Hg). apply filter_In in Hx as [Hx Hf].
    exists x. by rewrite list_elem_of_In.
  - intros (x & Hx & Hf & Hg). exists x. split; [|done].
    apply filter_In. by rewrite <- list_elem_of_In.
Qed.

(** After the clear button, whose handler rewrites the group in place, the
    group is reported lost exactly when it holds an entry picked from the
    Built-In section whose name is [DIRECT] or [REJECT] while its id is
    neither of these nor the id of a group; in particular it is no longer
    reported lost when every Built-In entry named [DIRECT] or [REJECT] has
    such an id. *)
Theorem clear_group_and_lost
    (store : SubscribesStore) (groups groups' : list Group.t) (g : Group.t) :
  map Group.id groups' = map Group.id groups →
  (hasLost store groups' (handleClearGroup store groups g) = true
   ↔ ∃ p, p ∈ Group.proxies g ∧
          Proxy.type p = "Built-In" ∧
          is_builtin (Proxy.name p) = true ∧
          is_builtin (Proxy.id p) = false ∧
          some_group groups (Proxy.id p) = false) ∧
  ((∀ p, p ∈ Group.proxies g → Proxy.type p = "Built-In" →
         is_builtin (Proxy.name p) = true → is_builtin (Proxy.id p) = true) →
   hasLost store groups' (handleClearGroup store groups g) = false).
Proof.
  intros Hids.
  assert (hasLost store groups' (handleClearGroup store groups g) = true
          ↔ ∃ p, p ∈ Group.proxies g ∧
                 Proxy.type p = "Built-In" ∧
                 is_builtin (Proxy.name p) = true ∧
                 is_builtin (Proxy.id p) = false ∧
                 some_group groups (Proxy.id p) = false) as Hiff.
  { unfold hasLost, handleClearGroup. simpl.
    rewrite orb_true_iff, !existsb_filter. split.
    - intros [(p & Hp & Hk & Hl) | (v & Hv & Hs & Hl)].
      + exists p. split; [done|]. apply (kept_and_lost store groups).
        split; [done|]. by rewrite <- (lost_ids store groups groups').
      + rewrite use_lost_spec, Hs in Hl. discriminate.
    - intros (p & Hp & Hrest). left. exists p. split; [done|].
      apply (kept_and_lost store groups) in Hrest as [Hk Hl].
      split; [done|]. by rewrite (lost_ids store groups groups'). }
  split; [exact Hiff|].
  intros Hnames.
  apply not_true_is_false. intros E.
  apply Hiff in E as (p & Hp & Ht & Hn & Hi & _).
  rewrite (Hnames p Hp Ht Hn) in Hi. discriminate.
Qed.

Lemma clear_group_and_lost_witness :
  let g := group "g1" "Auto"
             [builtin_ref "DIRECT" "DIRECT"; builtin_ref "gone" "Old group";
              Proxy.mk "n1" "s1" "node one"; Proxy.mk "n9" "s9" "node nine"]
             ["s1"; "s9"] in
  hasLost store1 [g] g = true ∧
  hasLost store1 [handleClearGroup store1 [g] g] (handleClearGroup store1 [g] g)
  = false.
Proof.
  split; [reflexivity|].
  apply (clear_group_and_lost store1
           [group "g1" "Auto"
              [builtin_ref "DIRECT" "DIRECT"; builtin_ref "gone" "Old group";
               Proxy.mk "n1" "s1" "node one"; Proxy.mk "n9" "s9" "node nine"]
              ["s1"; "s9"]]).
  - reflexivity.
  - intros p Hp Ht Hn.
    repeat (apply elem_of_cons in Hp as [-> | Hp]; [by vm_compute in Hn |- * |]).
    inversion Hp.
Defined.

Lemma filter_id_on {A} (f : A → bool) (l : list A) :
  (∀ x, x ∈ l → f x = true) → List.filter f l = l.
Proof.
  induction l as [|x l IH]; intros Hall; [done|]. simpl.
  rewrite (Hall x) by (by left). f_equal. apply IH.
  intros y Hy. apply Hall. by right.
Qed.

Lemma existsb_false_iff {A} (f : A → bool) (l : list A) :
  existsb f l = false ↔ ∀ x, x ∈ l → f x = false.
Proof.
  induction l as [|x l IH]; simpl.
  - split; [intros _ x H; inversion H | done].
  - rewrite orb_false_iff, IH. split.
    + intros [Hx Hl] y Hy. apply elem_of_cons in Hy as [-> | Hy]; [done|].
      by apply Hl.
    + intros Hall. split; [apply Hall; by left|].
      intros y Hy. apply Hall. by right.
Qed.

(** A group that is not reported lost is left as it is by the clearing,
    provided each of its Built-In entries whose id is [DIRECT] or [REJECT]
    is also named so or has the id of a group. *)
Theorem clear_group_keeps_sound_group
    (store : SubscribesStore) (groups : list Group.t) (g : Group.t) :
  hasLost store groups g = false →
  (∀ p, p ∈ Group.proxies g → Proxy.type p = "Built-In" →
        is_builtin (Proxy.id p) = true →
        is_builtin (Proxy.name p) = true ∨ some_group groups (Proxy.id p) = true) →
  handleClearGroup store groups g = g.
Proof.
  intros Hlost Hnames. unfold hasLost in Hlost.
  apply orb_false_iff in Hlost as [Hp Hu].
  rewrite existsb_false_iff in Hp. rewrite existsb_false_iff in Hu.
  unfold handleClearGroup.
  rewrite (filter_id_on (kept store groups)), (filter_id_on (some_subscribe store)).
  - by destruct g.
  - intros v Hv. specialize (Hu v Hv). rewrite use_lost_spec in Hu.
    by destruct (some_subscribe store v).
  - intros p Hin. specialize (Hp p Hin). rewrite lost_spec in Hp.
    unfold kept.
    destruct (String.eqb_spec (Proxy.type p) "Built-In") as [Ht | Ht].
    + destruct (is_builtin (Proxy.id p)) eqn:Ei.
      * destruct (Hnames p Hin Ht Ei) as [-> | Hg]; [done|].
        by destruct (is_builtin (Proxy.name p)).
      * simpl in Hp. apply negb_false_iff in Hp.
        by destruct (is_builtin (Proxy.name p)).
    + destruct (getSubscribeById store (Proxy.type p)); [|done].
      by apply negb_false_iff in Hp.
Qed.

Lemma clear_group_keeps_sound_group_witness :
  let g := group "g1" "Auto"
             [builtin_ref "DIRECT" "DIRECT"; Proxy.mk "n1" "s1" "node one"]
             ["s1"] in
  handleClearGroup store1 [g] g = g.
Proof.
  apply (clear_group_keeps_sound_group store1).
  - reflexivity.
  - intros p Hp Ht Hi. left.
    repeat (apply elem_of_cons in Hp as [-> | Hp]; [by vm_compute in Hi |- * |]).
    inversion Hp.
Defined.

Lemma filter_idem {A} (f : A → bool) (l : list A) :
  List.filter f (List.filter f l) = List.filter f l.
Proof.
  apply filter_id_on. intros x Hx.
  apply list_elem_of_In, filter_In in Hx. tauto.
Qed.

(** Clearing a group a second time changes nothing, also though the first
    clearing has rewritten the group inside [groups]. *)
Theorem clear_group_twice
    (store : SubscribesStore) (groups groups' : list Group.t) (g : Group.t) :
  map Group.id groups' = map Group.id groups →
  handleClearGroup store groups' (handleClearGroup store groups g)
  = handleClearGroup store groups g.
Proof.
  intros Hids. unfold handleClearGroup. simpl.
  rewrite (filter_idem (some_subscribe store)).
  assert (List.filter (kept store groups')
            (List.filter (kept store groups) (Group.proxies g))
          = List.filter (kept store groups) (Group.proxies g)) as ->; [|done].
  apply filter_id_on. intros p Hp.
  apply list_elem_of_In, filter_In in Hp as [_ Hp].
  by rewrite (kept_ids store groups groups').
Qed.

Lemma clear_group_twice_witness :
  let g := group "g1" "Auto"
             [builtin_ref "gone" "Old group"; Proxy.mk "n1" "s1" "node one"]
             ["s1"; "s9"] in
  handleClearGroup store1 [handleClearGroup store1 [g] g]
    (handleClearGroup store1 [g] g)
  = handleClearGroup store1 [g] g.
Proof.
  apply (clear_group_twice store1). reflexivity.
Defined.

End ProxyGroupFacts.

Section ProxyGroupSelection.

Import ProxyGroups.

Lemma findIndex_None {A} (p : A → bool) (l : list A) :
  findIndex p l = None ↔ existsb p l = false.
Proof.
  induction l as [|x l IH]; [done|]. simpl.
  destruct (p x); simpl; [done|].
  rewrite <- IH. by destruct (findIndex p l).
Qed.

(** [findIndex] finds the first element that passes the test. *)
Lemma findIndex_Some {A} (p : A → bool) (l : list A) (idx : nat) :
  findIndex p l = Some idx →
  ∃ pre x post,
    l = pre ++ x :: post ∧ length pre = idx ∧ p x = true ∧ existsb p pre = false.
Proof.
  revert idx. induction l as [|y l IH]; intros idx; [done|]. simpl.
  destruct (p y) eqn:Ey.
  - intros [= <-]. by exists [], y, l.
  - destruct (findIndex p l) as [j|]; [|done]. intros [= <-].
    destruct (IH j eq_refl) as (pre & x & post & -> & <- & Hx & Hpre).
    exists (y :: pre), x, post. simpl. by rewrite Ey.
Qed.

Lemma findIndex_snoc {A} (p : A → bool) (l : list A) (x : A) :
  existsb p l = false → p x = true → findIndex p (l ++ [x]) = Some (length l).
Proof.
  intros Hl Hx. induction l as [|y l IH]; simpl in *.
  - by rewrite Hx.
  - apply orb_false_iff in Hl as [-> Hl]. by rewrite IH.
Qed.

Lemma delete_snoc {A} (l : list A) (x : A) : delete (length l) (l ++ [x]) = l.
Proof. induction l as [|y l IH]; [done|]. simpl. by rewrite IH. Qed.

Lemma delete_middle {A} (pre : list A) (x : A) (post : list A) :
  delete (length pre) (pre ++ x :: post) = pre ++ post.
Proof. induction pre as [|y pre IH]; [done|]. simpl. by rewrite IH. Qed.

Lemma find_existsb {A} (p : A → bool) (l : list A) :
  match List.find p l with Some _ => true | None => false end = existsb p l.
Proof.
  induction l as [|x l IH]; [done|]. simpl. by destruct (p x).
Qed.

Lemma existsb_eqb_sym (x : string) (l : list string) :
  existsb (String.eqb x) l = existsb (λ v, String.eqb v x) l.
Proof.
  induction l as [|y l IH]; [done|]. simpl.
  by rewrite IH, (String.eqb_sym x y).
Qed.

Lemma set_use_same fields : set_use fields (Group.use fields) = fields.
Proof. by destruct fields. Qed.

Lemma set_proxies_same fields : set_proxies fields (Group.proxies fields) = fields.
Proof. by destruct fields. Qed.

(** A click on an entry that is not in use, followed by a second click on
    it, gives back the group of the dialog exactly; and unless the entry is
    the group itself in the Built-In section, it is in use in between. *)
Theorem select_then_deselect
    (groupID proxyID proxyName : string) (fields : Group.t) :
  isInuse groupID proxyID fields = false →
  handleAddProxy groupID proxyID proxyName
    (handleAddProxy groupID proxyID proxyName fields) = fields ∧
  (¬ (groupID = "Built-In" ∧ proxyID = Group.id fields) →
   isInuse groupID proxyID (handleAddProxy groupID proxyID proxyName fields) = true).
Proof.
  intros Hfree. unfold handleAddProxy at 2 3.
  destruct (String.eqb groupID "Built-In" && String.eqb proxyID (Group.id fields))
    eqn:Eself.
  { split.
    - unfold handleAddProxy. by rewrite Eself.
    - intros Hns. exfalso. apply Hns.
      apply andb_true_iff in Eself as [H1 H2].
      by apply String.eqb_eq in H1, H2. }
  unfold isInuse in *.
  destruct (String.eqb groupID "Subscribes") eqn:Esub.
  - rewrite existsb_eqb_sym in Hfree.
    rewrite (proj2 (findIndex_None _ _) Hfree).
    split.
    + unfold handleAddProxy. simpl. rewrite Eself, Esub.
      rewrite findIndex_snoc by (done || apply String.eqb_refl).
      rewrite delete_snoc. simpl.
      unfold set_use. simpl. by destruct fields.
    + intros _. simpl. rewrite existsb_app. simpl.
      rewrite String.eqb_refl. by rewrite orb_true_r.
  - rewrite find_existsb in Hfree.
    rewrite (proj2 (findIndex_None _ _) Hfree).
    split.
    + unfold handleAddProxy. simpl. rewrite Eself, Esub.
      rewrite findIndex_snoc by (done || apply String.eqb_refl).
      rewrite delete_snoc. simpl.
      unfold set_proxies. simpl. by destruct fields.
    + intros _. simpl. rewrite find_existsb, existsb_app. simpl.
      rewrite String.eqb_refl. by rewrite orb_true_r.
Qed.

Lemma select_then_deselect_witness :
  let fields := group "g1" "Auto" [builtin_ref "DIRECT" "DIRECT"] ["s1"] in
  handleAddProxy "s1" "n1" "node one" (handleAddProxy "s1" "n1" "node one" fields)
  = fields ∧
  isInuse "s1" "n1" (handleAddProxy "s1" "n1" "node one" fields) = true.
Proof.
  destruct (select_then_deselect "s1" "n1" "node one"
              (group "g1" "Auto" [builtin_ref "DIRECT" "DIRECT"] ["s1"]) eq_refl)
    as [H1 H2].
  split; [exact H1|]. apply H2. intros [H _]. discriminate.
Defined.

Lemma existsb_eqb_elem (x : string) (l : list string) :
  existsb (λ v, String.eqb v x) l = true ↔ x ∈ l.
Proof.
  induction l as [|y l IH]; simpl.
  - split; [discriminate | intros H; inversion H].
  - rewrite orb_true_iff, IH, String.eqb_eq, elem_of_cons.
    split; (intros [H|H]; [left; congruence | by right]).
Qed.

Lemma existsb_id_elem (x : string) (l : list Proxy.t) :
  existsb (λ v, String.eqb (Proxy.id v) x) l = true ↔ x ∈ map Proxy.id l.
Proof.
  rewrite (existsb_map Proxy.id (λ i, String.eqb i x)). apply existsb_eqb_elem.
Qed.

Lemma NoDup_middle {A} (pre : list A) (x : A) (post : list A) :
  NoDup (pre ++ x :: post) → NoDup (pre ++ post) ∧ x ∉ pre ++ post.
Proof.
  intros Hnd.
  assert (pre ++ x :: post ≡ₚ x :: (pre ++ post)) as Hperm
    by (symmetry; apply Permutation_middle).
  rewrite Hperm in Hnd. apply NoDup_cons in Hnd as [Hx Hnd]. done.
Qed.

Lemma not_true_iff_false' (b : bool) : b ≠ true ↔ b = false.
Proof. by destruct b. Qed.

(** When [use] and the ids of [proxies] have no repetition, a click keeps it
    so, and it flips whether the clicked entry is in use, except for a
    click on the group itself in the Built-In section, which does nothing. *)
Theorem click_toggles_selection
    (groupID proxyID proxyName : string) (fields : Group.t) :
  NoDup (Group.use fields) →
  NoDup (map Proxy.id (Group.proxies fields)) →
  let fields' := handleAddProxy groupID proxyID proxyName fields in
  NoDup (Group.use fields') ∧
  NoDup (map Proxy.id (Group.proxies fields')) ∧
  (groupID = "Built-In" ∧ proxyID = Group.id fields → fields' = fields) ∧
  (¬ (groupID = "Built-In" ∧ proxyID = Group.id fields) →
   isInuse groupID proxyID fields' = negb (isInuse groupID proxyID fields)).
Proof.
  intros Hu Hp. cbv zeta. unfold handleAddProxy.
  destruct (String.eqb groupID "Built-In" && String.eqb proxyID (Group.id fields))
    eqn:Eself.
  { repeat split; try done. intros Hns. exfalso. apply Hns.
    apply andb_true_iff in Eself as [H1 H2].
    by apply String.eqb_eq in H1, H2. }
  assert (¬ (groupID = "Built-In" ∧ proxyID = Group.id fields)) as Hns.
  { intros [-> ->]. by rewrite !String.eqb_refl in Eself. }
  unfold isInuse.
  destruct (String.eqb groupID "Subscribes") eqn:Esub.
  - rewrite !existsb_eqb_sym.
    destruct (findIndex _ (Group.use fields)) as [idx|] eqn:E.
    + apply findIndex_Some in E as (pre & x & post & Hl & <- & Hx & Hpre).
      apply String.eqb_eq in Hx as ->. simpl. rewrite Hl in *.
      rewrite delete_middle.
      apply NoDup_middle in Hu as [Hnd Hout].
      repeat split; [done | done | by intros ? | intros _].
      assert (existsb (λ v, String.eqb v proxyID) (pre ++ post) = false) as ->
        by (apply not_true_iff_false'; by rewrite existsb_eqb_elem).
      symmetry. apply negb_false_iff, existsb_eqb_elem.
      apply elem_of_app. right. by left.
    + apply findIndex_None in E. simpl.
      assert (proxyID ∉ Group.use fields) as Hout
        by (by rewrite <- existsb_eqb_elem, E).
      repeat split; [| done | by intros ? | intros _].
      * apply NoDup_app. split; [done|]. split; [|apply NoDup_singleton].
        intros x Hx Hin. apply list_elem_of_singleton in Hin as ->. done.
      * rewrite E. simpl. apply existsb_eqb_elem, elem_of_app. right. by left.
  - rewrite !find_existsb.
    destruct (findIndex _ (Group.proxies fields)) as [idx|] eqn:E.
    + apply findIndex_Some in E as (pre & x & post & Hl & <- & Hx & Hpre).
      apply String.eqb_eq in Hx. simpl. rewrite Hl in *.
      rewrite delete_middle.
      rewrite map_app in Hp. simpl in Hp. rewrite Hx in Hp.
      apply NoDup_middle in Hp as [Hnd Hout].
      rewrite <- map_app in Hnd, Hout.
      repeat split; [done | done | by intros ? | intros _].
      assert (existsb (λ v, String.eqb (Proxy.id v) proxyID) (pre ++ post) = false)
        as -> by (apply not_true_iff_false'; by rewrite existsb_id_elem).
      symmetry. apply negb_false_iff, existsb_id_elem.
      rewrite map_app. apply elem_of_app. right. simpl. rewrite Hx. by left.
    + apply findIndex_None in E. simpl.
      assert (proxyID ∉ map Proxy.id (Group.proxies fields)) as Hout
        by (by rewrite <- existsb_id_elem, E).
      repeat split; [done | | by intros ? | intros _].
      * rewrite map_app. simpl.
        apply NoDup_app. split; [done|]. split; [|apply NoDup_singleton].
        intros x Hx Hin. apply list_elem_of_singleton in Hin as ->. done.
      * rewrite E. simpl. apply existsb_id_elem.
        rewrite map_app. apply elem_of_app. right. by left.
Qed.

Lemma click_toggles_selection_witness :
  let fields := group "g1" "Auto" [builtin_ref "DIRECT" "DIRECT"] ["s1"] in
  isInuse "Built-In" "DIRECT" (handleAddProxy "Built-In" "DIRECT" "DIRECT" fields)
  = negb (isInuse "Built-In" "DIRECT" fields) ∧
  handleAddProxy "Built-In" "g1" "Auto" fields = fields.
Proof.
  assert (NoDup (Group.use (group "g1" "Auto" [builtin_ref "DIRECT" "DIRECT"] ["s1"])))
    as Hu by apply NoDup_singleton.
  assert (NoDup (map Proxy.id
                   (Group.proxies
                      (group "g1" "Auto" [builtin_ref "DIRECT" "DIRECT"] ["s1"]))))
    as Hp by apply NoDup_singleton.
  split.
  - apply (click_toggles_selection "Built-In" "DIRECT" "DIRECT" _ Hu Hp).
    intros [_ H]. discriminate.
  - by apply (click_toggles_selection "Built-In" "g1" "Auto" _ Hu Hp).
Defined.

Lemma handleAddProxy_id groupID proxyID proxyName fields :
  Group.id (handleAddProxy groupID proxyID proxyName fields) = Group.id fields.
Proof.
  unfold handleAddProxy.
  destruct (String.eqb groupID "Built-In" && String.eqb proxyID (Group.id fields));
    [done|].
  destruct (String.eqb groupID "Subscribes").
  - by destruct (findIndex _ (Group.use fields)).
  - by destruct (findIndex _ (Group.proxies fields)).
Qed.

Lemma handleAddProxy_no_self groupID proxyID proxyName fields :
  no_self fields → no_self (handleAddProxy groupID proxyID proxyName fields).
Proof.
  intros Hns p Hp. rewrite handleAddProxy_id. revert Hp. unfold handleAddProxy.
  destruct (String.eqb groupID "Built-In" && String.eqb proxyID (Group.id fields))
    eqn:Eself; [apply Hns|].
  destruct (String.eqb groupID "Subscribes").
  { destruct (findIndex _ (Group.use fields)); apply Hns. }
  destruct (findIndex _ (Group.proxies fields)) as [idx|] eqn:E; simpl.
  - apply findIndex_Some in E as (pre & x & post & Hl & <- & _ & _).
    rewrite Hl, delete_middle. intros Hp. apply Hns. rewrite Hl.
    apply elem_of_app in Hp as [Hp | Hp]; apply elem_of_app;
      [by left | right; by right].
  - intros Hp. apply elem_of_app in Hp as [Hp | Hp]; [by apply Hns|].
    apply list_elem_of_singleton in Hp as ->. simpl. intros [-> ->].
    by rewrite !String.eqb_refl in Eself.
Qed.

(** No run of clicks in the selector makes the group of the dialog a member
    of itself through the Built-In section, and none changes its id. *)
Theorem clicks_never_select_the_group_itself
    (l : list (string * string * string)) (fields : Group.t) :
  no_self fields →
  no_self (clicks l fields) ∧ Group.id (clicks l fields) = Group.id fields.
Proof.
  revert fields. induction l as [|[[g p] n] l IH]; intros fields Hns; [done|].
  unfold clicks. simpl. fold (clicks l (handleAddProxy g p n fields)).
  destruct (IH (handleAddProxy g p n fields)) as [H1 H2].
  - by apply handleAddProxy_no_self.
  - split; [done|]. by rewrite H2, handleAddProxy_id.
Qed.

Lemma clicks_never_select_the_group_itself_witness :
  let fields := group "g1" "Auto" [] [] in
  let l := [("Built-In", "g1", "Auto"); ("Built-In", "DIRECT", "DIRECT");
            ("s1", "n1", "node one"); ("Built-In", "g1", "Auto")] in
  no_self (clicks l fields) ∧ Group.id (clicks l fields) = Group.id fields.
Proof.
  apply (clicks_never_select_the_group_itself
           [("Built-In", "g1", "Auto"); ("Built-In", "DIRECT", "DIRECT");
            ("s1", "n1", "node one"); ("Built-In", "g1", "Auto")]
           (group "g1" "Auto" [] [])).
  intros p Hp. inversion Hp.
Defined.

(** A click on the title of a section flips whether that section is
    expanded and no other; a second click restores the set. *)
Theorem toggle_expanded_flips (k : string) (expandedSet : gset string) :
  isExpanded k (toggleExpanded k expandedSet) = negb (isExpanded k expandedSet) ∧
  (∀ k', k' ≠ k →
         isExpanded k' (toggleExpanded k expandedSet) = isExpanded k' expandedSet) ∧
  toggleExpanded k (toggleExpanded k expandedSet) = expandedSet.
Proof.
  unfold toggleExpanded, isExpanded.
  destruct (decide (k ∈ expandedSet)) as [Hin | Hout].
  - rewrite (bool_decide_eq_true_2 _ Hin). simpl.
    assert (k ∉ expandedSet ∖ {[k]}) as Hgone by set_solver.
    rewrite (bool_decide_eq_false_2 _ Hgone).
    split; [done|]. split.
    + intros k' Hne. apply bool_decide_ext. set_solver.
    + apply set_eq. intros x. destruct (decide (x = k)); set_solver.
  - rewrite (bool_decide_eq_false_2 _ Hout). simpl.
    assert (k ∈ expandedSet ∪ {[k]}) as Hthere by set_solver.
    rewrite (bool_decide_eq_true_2 _ Hthere).
    split; [done|]. split.
    + intros k' Hne. apply bool_decide_ext. set_solver.
    + set_solver.
Qed.

Lemma toggle_expanded_flips_witness :
  isExpanded "Subscribes"
    (toggleExpanded "Built-In" ({["Built-In"]} ∪ {["Subscribes"]}))
  = isExpanded "Subscribes" ({["Built-In"]} ∪ {["Subscribes"]}).
Proof.
  apply (toggle_expanded_flips "Built-In" ({["Built-In"]} ∪ {["Subscribes"]})).
  discriminate.
Defined.

Lemma lookup_split {A} (l : list A) (i : nat) (x : A) :
  l !! i = Some x →
  ∃ pre post, l = pre ++ x :: post ∧ length pre = i.
Proof.
  intros H. exists (take i l), (drop (S i) l). split.
  - by rewrite take_drop_middle.
  - rewrite length_take. apply lookup_lt_Some in H. lia.
Qed.

(** Deleting a group does not touch the other groups: one that holds the
    deleted group as a Built-In entry is reported lost afterwards, given
    that the ids of the groups are distinct and the deleted id is neither
    [DIRECT] nor [REJECT]. *)
Theorem delete_group_leaves_lost_references
    (store : SubscribesStore) (index : nat)
    (groups : list Group.t) (proxyGroup : list Subscribe.t)
    (groups' : list Group.t) (proxyGroup' : list Subscribe.t)
    (d g : Group.t) (p : Proxy.t) :
  handleDeleteGroup index groups proxyGroup = Some (groups', proxyGroup') →
  groups !! index = Some d →
  NoDup (map Group.id groups) →
  is_builtin (Group.id d) = false →
  g ∈ groups' →
  p ∈ Group.proxies g →
  Proxy.type p = "Built-In" →
  Proxy.id p = Group.id d →
  g ∈ groups ∧ hasLost store groups' g = true.
Proof.
  intros Hdel Hd Hnd Hb Hg Hp Ht Hi.
  unfold handleDeleteGroup in Hdel. rewrite Hd in Hdel.
  injection Hdel as <- _.
  apply lookup_split in Hd as (pre & post & -> & <-).
  rewrite delete_middle in *.
  split.
  { apply elem_of_app in Hg as [Hg | Hg]; apply elem_of_app;
      [by left | right; by right]. }
  rewrite map_app in Hnd. simpl in Hnd.
  apply NoDup_middle in Hnd as [_ Hout]. rewrite <- map_app in Hout.
  unfold hasLost. apply orb_true_iff. left.
  apply existsb_exists. exists p. split; [by apply list_elem_of_In|].
  rewrite lost_spec, Ht, Hi, Hb. simpl.
  apply negb_true_iff, not_true_iff_false'.
  unfold some_group.
  rewrite (existsb_map Group.id (λ x, String.eqb x (Group.id d))).
  by rewrite existsb_eqb_elem.
Qed.

Lemma delete_group_leaves_lost_references_witness :
  let old := group "g0" "Old group" [builtin_ref "DIRECT" "DIRECT"] [] in
  let g := group "g1" "Auto" [builtin_ref "g0" "Old group"] [] in
  hasLost no_store [old; g] g = false ∧
  g ∈ [old; g] ∧ hasLost no_store [g] g = true.
Proof.
  split; [reflexivity|].
  apply (delete_group_leaves_lost_references no_store 0
           [group "g0" "Old group" [builtin_ref "DIRECT" "DIRECT"] [];
            group "g1" "Auto" [builtin_ref "g0" "Old group"] []]
           [] _ [] (group "g0" "Old group" [builtin_ref "DIRECT" "DIRECT"] [])
           _ (builtin_ref "g0" "Old group")).
  - reflexivity.
  - reflexivity.
  - simpl. apply NoDup_cons. split; [|apply NoDup_singleton].
    intros H. apply list_elem_of_singleton in H. discriminate.
  - reflexivity.
  - by left.
  - by left.
  - reflexivity.
  - reflexivity.
Defined.

End ProxyGroupSelection.
